(** * Token-matching accuracy engine of
      [Evaluation/evaluation_category_matching_accuracy.py]

    A shallow embedding of [tokenize_sql], [compare_components],
    [evaluate_sql] and [categorize_query], with the properties the
    specification states about them.

    Modelling conventions.
    - A Python [str] is a Stdlib [string] whose characters are the code
      points 0..255; [\w], [\s], [str.lower] and [str.split] follow
      CPython's Unicode tables on that range.
    - [re.findall] is a backtracking matcher over the constructs the
      program's patterns use, with a left-to-right scan for
      non-overlapping matches.
    - [set] and [dict] are stdpp's [gset] and [gmap].
    - Python's true division yields a binary64 float; here the quotient is
      the exact rational ([Q]), and dividing by zero raises.
    - Exceptions are the [Raise] results of a small error monad. *)

From Stdlib Require Import ZArith QArith Ascii String List Bool Lia Lqa.
From stdpp Require Import base option list gmap strings.
Import ListNotations.

Local Open Scope nat_scope.

(** ** Characters *)

Module Char.

Definition code (c : ascii) : N := N_of_ascii c.

Definition in_range (lo hi : N) (c : ascii) : bool :=
  (lo <=? code c)%N && (code c <=? hi)%N.

(** [str.isalnum] on U+0000..U+00FF: letters, decimal digits, and the
    numeric characters of the Latin-1 supplement. *)
Definition isalnum (c : ascii) : bool :=
  in_range 48 57 c        (* 0-9 *)
  || in_range 65 90 c     (* A-Z *)
  || in_range 97 122 c    (* a-z *)
  || (code c =? 170)%N    (* feminine ordinal indicator *)
  || in_range 178 179 c   (* superscript two, three *)
  || (code c =? 181)%N    (* micro sign *)
  || in_range 185 186 c   (* superscript one, masculine ordinal *)
  || in_range 188 190 c   (* vulgar fractions *)
  || in_range 192 214 c
  || in_range 216 246 c
  || in_range 248 255 c.

(** [\w]: alphanumeric or underscore. *)
Definition is_word (c : ascii) : bool := isalnum c || (code c =? 95)%N.

(** [\s], also the separators of [str.split()]. *)
Definition is_space (c : ascii) : bool :=
  in_range 9 13 c || in_range 28 32 c || (code c =? 133)%N || (code c =? 160)%N.

(** [[^\w\s]] *)
Definition is_symbol (c : ascii) : bool := negb (is_word c) && negb (is_space c).

(** [.] without DOTALL: anything but a line feed. *)
Definition is_dot (c : ascii) : bool := negb (code c =? 10)%N.

(** [str.lower] on one character. *)
Definition lower (c : ascii) : ascii :=
  if in_range 65 90 c || in_range 192 214 c || in_range 216 222 c
  then ascii_of_N (code c + 32)
  else c.

End Char.

(** [str.lower] *)
Definition lower (s : list ascii) : list ascii := map Char.lower s.

(** [str.split()] with no argument: the maximal runs of non-space
    characters. [cur] is the run being read, reversed. *)
Fixpoint split_from (cur : list ascii) (s : list ascii) : list (list ascii) :=
  match s with
  | [] => match cur with [] => [] | _ => [rev cur] end
  | c :: s' =>
      if Char.is_space c
      then match cur with
           | [] => split_from [] s'
           | _ => rev cur :: split_from [] s'
           end
      else split_from (c :: cur) s'
  end.

Definition split (s : list ascii) : list (list ascii) := split_from [] s.

(** ** Regular expressions

    The constructs that occur in the program's patterns. *)

Inductive regex : Type :=
| Eps                              (* the empty pattern *)
| Bnd                              (* \b *)
| Cls (p : ascii -> bool)          (* one character of a class *)
| Seq (r1 r2 : regex)              (* r1 r2 *)
| Alt (r1 r2 : regex)              (* r1|r2 *)
| Star (p : ascii -> bool)         (* c*, greedy, c a class *)
| Grp (r : regex).                 (* (r) *)

(** A literal string. *)
Fixpoint lit_chars (s : list ascii) : regex :=
  match s with
  | [] => Eps
  | c :: s' => Seq (Cls (Ascii.eqb c)) (lit_chars s')
  end.

Definition lit (s : string) : regex := lit_chars (list_ascii_of_string s).

(** [c+] *)
Definition Plus (p : ascii -> bool) : regex := Seq (Cls p) (Star p).

Definition is_word_opt (c : option ascii) : bool :=
  match c with Some c => Char.is_word c | None => false end.

(** [\b] holds between the previous character [prev] and the input [s]
    when exactly one side is a word character; the edges of the string
    count as non-word. *)
Definition at_boundary (prev : option ascii) (s : list ascii) : bool :=
  xorb (is_word_opt prev) (is_word_opt (head s)).

Section Matcher.
Context {A : Type}.

(** A continuation receives the previous character and the rest of the
    input. [None] makes the matcher backtrack. *)
Definition cont := option ascii -> list ascii -> option A.

(** Greedy [c*]: consume as long as possible, give characters back
    one at a time while the continuation fails. *)
Fixpoint star_loop (p : ascii -> bool) (k : cont)
    (prev : option ascii) (s : list ascii) : option A :=
  match s with
  | c :: s' =>
      if p c
      then match star_loop p k (Some c) s' with
           | Some x => Some x
           | None => k prev s
           end
      else k prev s
  | [] => k prev s
  end.

Fixpoint rmatch (r : regex) (k : cont)
    (prev : option ascii) (s : list ascii) : option A :=
  match r with
  | Eps => k prev s
  | Bnd => if at_boundary prev s then k prev s else None
  | Cls p =>
      match s with
      | c :: s' => if p c then k (Some c) s' else None
      | [] => None
      end
  | Seq r1 r2 => rmatch r1 (fun prev' s' => rmatch r2 k prev' s') prev s
  | Alt r1 r2 =>
      match rmatch r1 k prev s with
      | Some x => Some x
      | None => rmatch r2 k prev s
      end
  | Star p => star_loop p k prev s
  | Grp r => rmatch r k prev s
  end.
End Matcher.

(** The match of [r] anchored at the current position: the rest of the
    input after the match. *)
Definition match_here (r : regex) (prev : option ascii) (s : list ascii)
  : option (list ascii) :=
  rmatch r (fun _ s' => Some s') prev s.

(** [re.findall]: scan left to right; where the pattern matches, emit the
    matched text and resume after it. [skip] counts the characters that
    the last match still covers. An empty match is emitted and the scan
    moves one character on. For a pattern with a group Python returns the
    group's text instead of the whole match; the program only takes the
    length of such results. *)
Fixpoint scan (r : regex) (skip : nat) (prev : option ascii) (s : list ascii)
  : list (list ascii) :=
  match s with
  | [] =>
      match skip, match_here r prev [] with
      | 0, Some _ => [[]]
      | _, _ => []
      end
  | c :: s' =>
      match skip with
      | S n => scan r n (Some c) s'
      | 0 =>
          match match_here r prev s with
          | Some rest =>
              let n := length s - length rest in
              take n s :: scan r (n - 1) (Some c) s'
          | None => scan r 0 (Some c) s'
          end
      end
  end.

Definition findall (r : regex) (s : list ascii) : list (list ascii) :=
  scan r 0 None s.

(** The character before the position reached after reading [a]. *)
Definition last_char (prev : option ascii) (a : list ascii) : option ascii :=
  match last a with
  | Some c => Some c
  | None => prev
  end.

(** ** tokenize_sql *)

(** [r'\w+|[^\w\s]'] *)
Definition token_re : regex := Alt (Plus Char.is_word) (Cls Char.is_symbol).

(** The argument is [None] for a missing value ([pd.isna]). *)
Definition tokenize_sql (sql : option string) : list string :=
  match sql with
  | None => []
  | Some sql =>
      let tokens := findall token_re (list_ascii_of_string sql) in
      map (fun token => string_of_list_ascii (lower token)) tokens
  end.

(** The tokenizer as the specification words it: whitespace yields no
    token, a character that is neither a word character nor whitespace is
    a token of its own, and a maximal run of word characters is one
    token. *)
Inductive Tokens : list ascii -> list (list ascii) -> Prop :=
| Tokens_nil : Tokens [] []
| Tokens_space c s toks :
    Char.is_space c = true -> Tokens s toks -> Tokens (c :: s) toks
| Tokens_symbol c s toks :
    Char.is_word c = false -> Char.is_space c = false ->
    Tokens s toks -> Tokens (c :: s) ([c] :: toks)
| Tokens_word w s toks :
    w <> [] -> forallb Char.is_word w = true -> is_word_opt (head s) = false ->
    Tokens s toks -> Tokens (w ++ s) (w :: toks).

(** The leading run of word characters of [s], and what follows it. *)
Fixpoint word_run (s : list ascii) : list ascii :=
  match s with
  | c :: s' => if Char.is_word c then c :: word_run s' else []
  | [] => []
  end.

Fixpoint after_run (s : list ascii) : list ascii :=
  match s with
  | c :: s' => if Char.is_word c then after_run s' else s
  | [] => []
  end.

(** ** Exceptions *)

Inductive exn : Type :=
| ZeroDivisionError
| TypeError
| AttributeError
| ValueError
| SyntaxError.

Inductive result (A : Type) : Type :=
| Ok (a : A)
| Raise (e : exn).
Arguments Ok {A} a.
Arguments Raise {A} e.

#[global] Instance result_ret : MRet result := fun A a => Ok a.
#[global] Instance result_bind : MBind result := fun A B f m =>
  match m with
  | Ok a => f a
  | Raise e => Raise e
  end.

(** [a / b] on integers *)
Definition truediv (a b : Z) : result Q :=
  if (b =? 0)%Z then Raise ZeroDivisionError
  else Ok (inject_Z a / inject_Z b)%Q.

(** ** compare_components *)

Section Matching.
(** Tokens are hashable values with equality. *)
Context `{Countable K}.

(** One iteration of the loop over [ref_tokens]; the state is
    [(results, matched_tokens)]. *)
Definition compare_step (gen_token_set : gset K)
    (st : gmap K bool * Z) (token : K) : gmap K bool * Z :=
  let '(results, matched_tokens) := st in
  let presence := bool_decide (token ∈ gen_token_set) in
  (<[token := presence]> results,
   if presence then (matched_tokens + 1)%Z else matched_tokens).

Definition compare_components (ref_tokens gen_tokens : list K)
  : result (Q * gmap K bool) :=
  let gen_token_set : gset K := list_to_set gen_tokens in
  let '(results, matched_tokens) :=
    foldl (compare_step gen_token_set) (∅, 0%Z) ref_tokens in
  let total_ref_tokens := Z.of_nat (length ref_tokens) in
  match_percentage ←
    (if (0 <? total_ref_tokens)%Z
     then q ← truediv matched_tokens total_ref_tokens; mret (q * 100)%Q
     else mret 0%Q);
  mret (match_percentage, results).

(** What the loop computes, in closed form: the number of reference
    tokens found in the generated set, the detail map, the percentage. *)
Definition matched_count (gen_token_set : gset K) (ref_tokens : list K) : Z :=
  Z.of_nat (length (filter (fun t => t ∈ gen_token_set) ref_tokens)).

Definition presence_map (gen_token_set : gset K) (ref_tokens : list K)
  : gmap K bool :=
  foldl (fun m t => <[t := bool_decide (t ∈ gen_token_set)]> m) ∅ ref_tokens.

Definition match_percentage (gen_token_set : gset K) (ref_tokens : list K) : Q :=
  let total := Z.of_nat (length ref_tokens) in
  if (0 <? total)%Z
  then (inject_Z (matched_count gen_token_set ref_tokens) / inject_Z total * 100)%Q
  else 0%Q.

(** [all(details.values())] *)
Definition all_values (details : gmap K bool) : bool :=
  forallb (fun v => v) (map snd (map_to_list details)).

(** The branch of [evaluate_sql]'s loop for a row whose generated query
    is present: the matcher's percentage and details, and the exact
    flag. This is the specification's [match]. *)
Definition match_tokens (ref_tokens gen_tokens : list K)
  : result (Q * gmap K bool * Z) :=
  '(percentage, details) ← compare_components ref_tokens gen_tokens;
  mret (percentage, details, if all_values details then 1%Z else 0%Z).
End Matching.

(** ** evaluate_sql *)

(** The values a cell of the [query_toks] column, or the result of
    [ast.literal_eval], can be: a [str]; a [bytes]; an iterable that is
    neither (list, tuple, set, or a dict, which iterates over its keys),
    given by its items in iteration order; or a value that can neither
    be iterated nor lower-cased (None, NaN, a number, a boolean). *)
#[warnings="-register-all"]
Inductive pyval : Type :=
| PyStr (s : string)
| PyBytes (b : string)
| PyIter (items : list pyval)
| PyAtom.

(** A reference token after [token.lower()]: a [str] or a [bytes]. *)
Inductive token : Type :=
| TStr (s : string)
| TBytes (b : string).

#[global] Instance token_eq_dec : EqDecision token.
Proof. solve_decision. Defined.

#[global] Instance token_countable : Countable token.
Proof.
  refine (inj_countable'
    (fun t => match t with TStr s => inl s | TBytes b => inr b end)
    (fun x => match x with inl s => TStr s | inr b => TBytes b end) _).
  intros []; reflexivity.
Defined.

(** [bytes.lower]: only A-Z change. *)
Definition lower_byte (c : ascii) : ascii :=
  if Char.in_range 65 90 c then ascii_of_N (Char.code c + 32) else c.

Definition lower_str (s : string) : string :=
  string_of_list_ascii (lower (list_ascii_of_string s)).

Definition lower_bytes (b : string) : string :=
  string_of_list_ascii (map lower_byte (list_ascii_of_string b)).

(** [for token in v] *)
Definition iterate (v : pyval) : result (list pyval) :=
  match v with
  | PyStr s => Ok (map (fun c => PyStr (String c EmptyString)) (list_ascii_of_string s))
  | PyBytes b => Ok (map (fun _ => PyAtom) (list_ascii_of_string b))
  | PyIter items => Ok items
  | PyAtom => Raise TypeError
  end.

(** [token.lower()] *)
Definition token_lower (v : pyval) : result token :=
  match v with
  | PyStr s => Ok (TStr (lower_str s))
  | PyBytes b => Ok (TBytes (lower_bytes b))
  | PyIter _ => Raise AttributeError
  | PyAtom => Raise AttributeError
  end.

(** [[f(x) for x in l]] where [f] may raise. *)
Fixpoint traverse {A B : Type} (f : A -> result B) (l : list A) : result (list B) :=
  match l with
  | [] => Ok []
  | x :: l' => y ← f x; ys ← traverse f l'; mret (y :: ys)
  end.

(** A dataset row: [generated_query] is a string or missing;
    [query_toks] is whatever the cell holds. *)
Record row : Type := Row {
  generated_query : option string;
  query_toks : pyval
}.

(** A row with the two token columns [evaluate_sql] adds. *)
Record token_row : Type := TokenRow {
  tr_row : row;
  generated_tokens : list string;
  reference_tokens : list token
}.

Definition outputs : Type := list Q * list (gmap token bool) * list Z.

Section Evaluate.
(** [ast.literal_eval] belongs to Python's library: it either raises
    or yields a literal value. *)
Variable literal_eval : string -> result pyval.

(** The lambda applied to the [query_toks] column. *)
Definition decode_query_toks (x : pyval) : result (list token) :=
  v ← (match x with PyStr s => literal_eval s | _ => Ok x end);
  items ← iterate v;
  traverse token_lower items.

(** The body of the loop over the rows. *)
Definition evaluate_row (acc : outputs) (r : token_row) : result outputs :=
  let '(match_percentages, match_details, exact_matches) := acc in
  match generated_query (tr_row r) with
  | None =>
      Ok (match_percentages ++ [0%Q], match_details ++ [∅], exact_matches ++ [0%Z])
  | Some _ =>
      '(percentage, details) ←
        compare_components (reference_tokens r) (map TStr (generated_tokens r));
      mret (match_percentages ++ [percentage],
            match_details ++ [details],
            exact_matches ++ [if all_values details then 1%Z else 0%Z])
  end.

(** What one iteration appends, in closed form. *)
Definition row_outcome (r : token_row) : Q * gmap token bool * Z :=
  match generated_query (tr_row r) with
  | None => (0%Q, ∅, 0%Z)
  | Some _ =>
      let gen_token_set : gset token := list_to_set (map TStr (generated_tokens r)) in
      let details := presence_map gen_token_set (reference_tokens r) in
      (match_percentage gen_token_set (reference_tokens r), details,
       if all_values details then 1%Z else 0%Z)
  end.

Fixpoint evaluate_rows (acc : outputs) (rows : list token_row) : result outputs :=
  match rows with
  | [] => Ok acc
  | r :: rows' => acc' ← evaluate_row acc r; evaluate_rows acc' rows'
  end.

(** The frame with its two added columns. *)
Definition token_rows (data : list row) (gen : list (list string))
    (ref : list (list token)) : list token_row :=
  zip_with (fun r '(g, t) => TokenRow r g t) data (zip gen ref).

Definition evaluate_sql (data : list row) : result outputs :=
  let gen := map (fun r => tokenize_sql (generated_query r)) data in
  ref ← traverse (fun r => decode_query_toks (query_toks r)) data;
  evaluate_rows ([], [], []) (token_rows data gen ref).
End Evaluate.

(** Three points of [ast.literal_eval]'s graph, for evaluating the row
    evaluator on concrete cells: an empty list, a list of two strings, and
    an unclosed bracket, which Python rejects with a SyntaxError. Other
    inputs lie outside the sample. *)
Definition sample_literal_eval (s : string) : result pyval :=
  if String.eqb s "[]" then Ok (PyIter [])
  else if String.eqb s "['SELECT', 'a']" then Ok (PyIter [PyStr "SELECT"; PyStr "a"])
  else if String.eqb s "[" then Raise SyntaxError
  else Raise ValueError.

(** An item without a [lower] method: neither a [str] nor a [bytes]. *)
Definition no_lower (v : pyval) : bool :=
  match v with
  | PyStr _ | PyBytes _ => false
  | PyIter _ | PyAtom => true
  end.

(** The outcomes of [ast.literal_eval] on a string cell that are no
    reference tokens for the code: the parser raises; the value cannot be
    iterated; the value is a non-empty bytes literal, whose items are
    integers; the value is an iterable with an item without [lower]. *)
Definition undecodable (outcome : result pyval) : bool :=
  match outcome with
  | Raise _ => true
  | Ok PyAtom => true
  | Ok (PyBytes b) => negb (String.eqb b "")
  | Ok (PyStr _) => false
  | Ok (PyIter items) => existsb no_lower items
  end.

(** A further point of [ast.literal_eval]'s graph: the empty bytes
    literal. Other inputs lie outside the sample. *)
Definition sample_bytes_eval (s : string) : result pyval :=
  if String.eqb s "b''" then Ok (PyBytes "") else Raise ValueError.

(** ** categorize_query *)

Inductive hardness : Type := Easy | Medium | Hard.

Definition hardness_label (h : hardness) : string :=
  match h with
  | Easy => "Easy"
  | Medium => "Medium"
  | Hard => "Hard"
  end.

Definition seq_of (rs : list regex) : regex := fold_right Seq Eps rs.

(** [a|b|...] *)
Fixpoint any_of (first : string) (others : list string) : regex :=
  match others with
  | [] => lit first
  | o :: others' => Alt (lit first) (any_of o others')
  end.

(** [\bkw\b] *)
Definition keyword_re (kw : string) : regex := seq_of [Bnd; lit kw; Bnd].

(** [\b(a|b|...)\b] *)
Definition keywords_re (first : string) (others : list string) : regex :=
  seq_of [Bnd; Grp (any_of first others); Bnd].

Definition join_re := keyword_re "join".
Definition where_re := keyword_re "where".
Definition group_by_re := keyword_re "group by".
Definition order_by_re := keyword_re "order by".
Definition having_re := keyword_re "having".
Definition union_re := keyword_re "union".
Definition intersect_re := keyword_re "intersect".
Definition except_re := keyword_re "except".
Definition distinct_re := keyword_re "distinct".
Definition aggregate_re :=
  keywords_re "avg" ["count"; "min"; "max"; "sum"; "variance"; "stddev"]%string.
Definition advanced_re :=
  keywords_re "case"
    ["cast"; "coalesce"; "decode"; "rank"; "dense_rank"; "row_number"; "ntile"]%string.
Definition logical_re := keywords_re "and" ["or"]%string.

(** [\bselect\b.*\bfrom\b.*\bwhere\b.*\b(select\b.*\bfrom\b)] *)
Definition subquery_re : regex :=
  seq_of [Bnd; lit "select"; Bnd; Star Char.is_dot;
          Bnd; lit "from"; Bnd; Star Char.is_dot;
          Bnd; lit "where"; Bnd; Star Char.is_dot;
          Bnd; Grp (seq_of [lit "select"; Bnd; Star Char.is_dot;
                            Bnd; lit "from"; Bnd])].

(** [len(re.findall(r, s))] *)
Definition count (r : regex) (s : list ascii) : Z :=
  Z.of_nat (length (findall r s)).

Definition complexity_score (query : string) : Z :=
  let query_lower := lower (list_ascii_of_string query) in
  let complexity_score := 0%Z in
  let complexity_score := (complexity_score + count join_re query_lower * 2)%Z in
  let complexity_score := (complexity_score + count where_re query_lower)%Z in
  let complexity_score := (complexity_score + count group_by_re query_lower)%Z in
  let complexity_score := (complexity_score + count order_by_re query_lower)%Z in
  let complexity_score := (complexity_score + count having_re query_lower)%Z in
  let complexity_score := (complexity_score + count union_re query_lower * 2)%Z in
  let complexity_score := (complexity_score + count intersect_re query_lower * 2)%Z in
  let complexity_score := (complexity_score + count except_re query_lower * 2)%Z in
  let complexity_score := (complexity_score + count distinct_re query_lower)%Z in
  let complexity_score := (complexity_score + count aggregate_re query_lower)%Z in
  let subquery_count := count subquery_re query_lower in
  let complexity_score := (complexity_score + subquery_count * 3)%Z in
  let complexity_score := (complexity_score + count advanced_re query_lower)%Z in
  let complexity_score :=
    (complexity_score + Z.of_nat (length (split query_lower)) / 50)%Z in
  let condition_complexity := count logical_re query_lower in
  let complexity_score := (complexity_score + condition_complexity)%Z in
  complexity_score.

Definition categorize_query (query : string) : hardness :=
  let complexity_score := complexity_score query in
  if (complexity_score <=? 3)%Z then Easy
  else if (complexity_score <=? 7)%Z then Medium
  else Hard.

(** ** The classifier as the specification words it *)

(** [strip_prefix w s] is the rest of [s] after the literal [w]. *)
Fixpoint strip_prefix (w s : list ascii) : option (list ascii) :=
  match w, s with
  | [], _ => Some s
  | c :: w', d :: s' => if Ascii.eqb c d then strip_prefix w' s' else None
  | _ :: _, [] => None
  end.

(** The phrase [kw] stands at the current position with a word boundary
    on either side. *)
Definition delimited (kw : list ascii) (prev : option ascii) (s : list ascii)
  : bool :=
  at_boundary prev s &&
  match strip_prefix kw s with
  | Some rest => at_boundary (last_char prev kw) rest
  | None => false
  end.

(** The number of positions of [s], the end included, at which [M]
    holds. *)
Fixpoint count_positions (M : option ascii -> list ascii -> bool)
    (prev : option ascii) (s : list ascii) : nat :=
  (if M prev s then 1 else 0) +
  match s with
  | [] => 0
  | c :: s' => count_positions M (Some c) s'
  end.






(** ** Auxiliary notions for the proofs about the patterns *)

(** The alternatives of [a|b|...] tried in order on literal words. *)
Fixpoint try_words {A : Type} (ws : list (list ascii))
    (k : option ascii -> list ascii -> option A)
    (prev : option ascii) (s : list ascii) : option A :=
  match ws with
  | [] => None
  | w :: ws' =>
      match
        match strip_prefix w s with
        | Some rest => k (last_char prev w) rest
        | None => None
        end
      with
      | Some x => Some x
      | None => try_words ws' k prev s
      end
  end.

(** [\b(w1|w2|...)\b] anchored at the current position. *)
Definition match_words (ws : list (list ascii)) (prev : option ascii)
    (s : list ascii) : option (list ascii) :=
  if at_boundary prev s
  then try_words ws (fun p u => if at_boundary p u then Some u else None) prev s
  else None.

(** No word of [ws] can start inside the word [p :: w]: at each inner
    position either there is no word boundary or no word of [ws] begins
    with the character found there. *)
Fixpoint inner_ok (ws : list (list ascii)) (p : ascii) (w : list ascii) : bool :=
  match w with
  | [] => true
  | c :: w' =>
      (negb (xorb (Char.is_word p) (Char.is_word c))
       || forallb (fun w' => match w' with
                             | [] => false
                             | c' :: _ => negb (Ascii.eqb c' c)
                             end) ws)
      && inner_ok ws c w'
  end.

Definition keywords_ok (ws : list (list ascii)) : bool :=
  forallb (fun w => match w with
                    | [] => false
                    | c :: w' => inner_ok ws c w'
                    end) ws.

(** A non-empty word made of word characters only. *)
Definition word_only (w : list ascii) : bool :=
  match w with [] => false | _ => forallb Char.is_word w end.

(** Some position of the first line of [s] satisfies [M]. *)
Fixpoint line_has (M : option ascii -> list ascii -> bool)
    (prev : option ascii) (s : list ascii) : bool :=
  M prev s ||
  match s with
  | [] => false
  | c :: s' => if Char.is_dot c then line_has M (Some c) s' else false
  end.

(** What follows the first line feed of [s]. *)
Fixpoint after_line (s : list ascii) : list ascii :=
  match s with
  | [] => []
  | c :: s' => if Char.is_dot c then after_line s' else s'
  end.

(** The nested-select pattern up to its last [.*]. *)
Definition subquery_head : regex :=
  seq_of [Bnd; lit "select"; Bnd; Star Char.is_dot;
          Bnd; lit "from"; Bnd; Star Char.is_dot;
          Bnd; lit "where"; Bnd; Star Char.is_dot;
          Bnd; lit "select"; Bnd].

(** Every character class of [r] excludes the line feed, so that a
    match of [r] stays within one line. *)
Fixpoint line_bound (r : regex) : bool :=
  match r with
  | Eps | Bnd => true
  | Cls p | Star p =>
      forallb (fun c => implb (p c) (Char.is_dot c)) (map ascii_of_nat (seq 0 256))
  | Seq r1 r2 | Alt r1 r2 => line_bound r1 && line_bound r2
  | Grp r => line_bound r
  end.

Definition matches (r : regex) (prev : option ascii) (s : list ascii) : bool :=
  match match_here r prev s with
  | Some _ => true
  | None => false
  end.

(** ** Shapes of tokens *)

(** A token is a run of word characters or one symbol. *)
Definition token_shape (tok : list ascii) : bool :=
  word_only tok ||
  match tok with
  | [c] => Char.is_symbol c
  | _ => false
  end.

(** The text with its whitespace removed. *)
Definition without_spaces (s : list ascii) : list ascii :=
  List.filter (fun c => negb (Char.is_space c)) s.

(** ** The main block: the figures of one category *)

(** [sum(xs)] *)
Definition py_sum_Q (xs : list Q) : Q := foldl Qplus 0%Q xs.

Definition py_sum_Z (xs : list Z) : Z := foldl Z.add 0%Z xs.

(** [x / n] for a number [x] and an integer [n] *)
Definition truediv_Q (x : Q) (n : Z) : result Q :=
  if (n =? 0)%Z then Raise ZeroDivisionError
  else Ok (x / inject_Z n)%Q.

(** The body of the loop over the categories, from [evaluate_sql] to the
    pair stored in [final_results]: the percentage of exact matches and
    the average partial match. [category_data] is the frame read for the
    category. *)
Definition category_results (literal_eval : string -> result pyval)
    (category_data : list row) : result (Q * Q) :=
  '(match_percentages, match_details, exact_matches) ←
    evaluate_sql literal_eval category_data;
  average_partial_match ←
    truediv_Q (py_sum_Q match_percentages) (Z.of_nat (length match_percentages));
  q ← truediv (py_sum_Z exact_matches) (Z.of_nat (length exact_matches));
  let percentage_exact_match := (q * 100)%Q in
  mret (percentage_exact_match, average_partial_match).

(** ** The main block: the split by hardness *)

#[global] Instance hardness_eq_dec : EqDecision hardness.
Proof. solve_decision. Defined.

(** A row of the input frame: its [query] column and the columns
    [evaluate_sql] reads. *)
Record query_row : Type := QueryRow {
  qr_query : string;
  qr_fields : row
}.

(** [Series.unique()]: the distinct values, in order of first
    appearance. *)
Fixpoint unique {A : Type} `{EqDecision A} (l : list A) : list A :=
  match l with
  | [] => []
  | x :: l' => x :: filter (fun y => y <> x) (unique l')
  end.

(** The frames written to the per-category files: for each hardness
    level that occurs, the rows of that level. *)
Definition hardness_subsets (data : list query_row)
  : list (hardness * list query_row) :=
  let hardness_level := map (fun r => categorize_query (qr_query r)) data in
  map (fun category =>
         (category,
          filter (fun r => categorize_query (qr_query r) = category) data))
      (unique hardness_level).

(** The number of line feeds of a text. *)
Definition line_feeds (s : list ascii) : nat :=
  length (List.filter (fun c => negb (Char.is_dot c)) s).

(** One more point of [ast.literal_eval]'s graph: a quoted string is a
    string literal. Other inputs lie outside the sample. *)
Definition sample_quoted_eval (s : string) : result pyval :=
  if String.eqb s "'Ab'" then Ok (PyStr "Ab") else Raise ValueError.

(** * Properties *)

Example tokenize_sql_scenario :
  tokenize_sql (Some "SELECT a FROM t WHERE a>=1"%string)
  = ["select"; "a"; "from"; "t"; "where"; "a"; ">"; "="; "1"]%string.
Proof. vm_compute. reflexivity. Qed.

Example categorize_scenarios :
  complexity_score "SELECT a FROM t" = 0%Z /\
  complexity_score "SELECT a FROM t JOIN u ON x JOIN v ON y WHERE z GROUP BY w" = 6%Z /\
  complexity_score "select a from t where b in (select c from u) and d > 1 --" = 5%Z /\
  complexity_score "dense_rank rank GROUP  BY order by x" = 3%Z.
Proof. vm_compute. repeat split; reflexivity. Qed.

(** ** The matcher *)

Lemma percent_bounds (m n : Z) :
  (0 <= m <= n)%Z -> (0 < n)%Z ->
  (0 <= inject_Z m / inject_Z n * 100)%Q /\
  (inject_Z m / inject_Z n * 100 <= 100)%Q.
Proof.
  intros Hm Hn. destruct n as [|p|p]; try lia.
  rewrite <- Qmake_Qdiv. unfold Qle, Qmult; simpl. split; nia.
Qed.

Lemma percent_full (m n : Z) :
  (0 < n)%Z -> (inject_Z m / inject_Z n * 100 == 100)%Q <-> m = n.
Proof.
  intros Hn. destruct n as [|p|p]; try lia.
  rewrite <- Qmake_Qdiv. unfold Qeq, Qmult; simpl. split; nia.
Qed.

Section MatchingFacts.
Context `{Countable K}.
Implicit Types (ref gen : list K) (S : gset K) (m : gmap K bool).

Lemma compare_step_fold S ref m n :
  foldl (compare_step S) (m, n) ref
  = (foldl (fun m t => <[t := bool_decide (t ∈ S)]> m) m ref,
     (n + Z.of_nat (length (filter (fun t => t ∈ S) ref)))%Z).
Proof.
  revert m n. induction ref as [|t ref IH]; intros m n; simpl.
  - f_equal. lia.
  - rewrite IH. f_equal. rewrite filter_cons.
    destruct (decide (t ∈ S)) as [Ht|Ht].
    + rewrite bool_decide_eq_true_2 by done. simpl. lia.
    + rewrite bool_decide_eq_false_2 by done. lia.
Qed.

Lemma presence_lookup S ref m k :
  foldl (fun m t => <[t := bool_decide (t ∈ S)]> m) m ref !! k
  = if decide (k ∈ ref) then Some (bool_decide (k ∈ S)) else m !! k.
Proof.
  revert m. induction ref as [|t ref IH]; intros m; simpl.
  - destruct (decide (k ∈ [])) as [Hin|_]; [inversion Hin | done].
  - rewrite IH. destruct (decide (k ∈ ref)) as [Hin|Hin].
    + rewrite decide_True; [done | by right].
    + destruct (decide (k = t)) as [->|Hne].
      * rewrite lookup_insert_eq. rewrite decide_True; [done | by left].
      * rewrite lookup_insert_ne by done.
        rewrite decide_False; [done |].
        intros Hin'. apply elem_of_cons in Hin' as [?|?]; done.
Qed.

Lemma all_values_true m :
  all_values m = true <-> forall k v, m !! k = Some v -> v = true.
Proof.
  unfold all_values. rewrite forallb_forall. split.
  - intros Hall k v Hk. apply (Hall v).
    apply list_elem_of_In, list_elem_of_fmap. exists (k, v). split; [done |].
    by apply elem_of_map_to_list.
  - intros Hall v Hv.
    apply list_elem_of_In, list_elem_of_fmap in Hv as [[k v'] [-> Hkv]].
    apply elem_of_map_to_list in Hkv. eauto.
Qed.

Lemma filter_length_le S ref :
  length (filter (fun t => t ∈ S) ref) <= length ref.
Proof. apply length_filter. Qed.

Lemma filter_length_full S ref :
  length (filter (fun t => t ∈ S) ref) = length ref <-> forall t, t ∈ ref -> t ∈ S.
Proof.
  induction ref as [|t ref IH]; simpl.
  - split; [intros _ t Ht; inversion Ht | done].
  - rewrite filter_cons. destruct (decide (t ∈ S)) as [Ht|Ht]; simpl.
    + split.
      * intros Hlen u Hu. apply elem_of_cons in Hu as [->|Hu]; [done |].
        apply IH; [lia | done].
      * intros Hall. f_equal. apply IH. intros u Hu. apply Hall. by right.
    + split.
      * intros Hlen. pose proof (filter_length_le S ref). lia.
      * intros Hall. exfalso. apply Ht, Hall. by left.
Qed.

Lemma compare_components_eq ref gen :
  compare_components ref gen
  = Ok (match_percentage (list_to_set gen) ref, presence_map (list_to_set gen) ref).
Proof.
  unfold compare_components, match_percentage, presence_map, matched_count.
  rewrite compare_step_fold. simpl.
  destruct (0 <? Z.of_nat (length ref))%Z eqn:Hpos; [|done].
  apply Z.ltb_lt in Hpos. unfold truediv.
  destruct (Z.eqb_spec (Z.of_nat (length ref)) 0) as [Hz|_]; [lia | done].
Qed.

Lemma match_tokens_eq ref gen :
  match_tokens ref gen
  = Ok (match_percentage (list_to_set gen) ref,
        presence_map (list_to_set gen) ref,
        if all_values (presence_map (list_to_set gen) ref) then 1%Z else 0%Z).
Proof. unfold match_tokens. by rewrite compare_components_eq. Qed.

Lemma presence_all S ref :
  all_values (presence_map S ref) = true <-> forall t, t ∈ ref -> t ∈ S.
Proof.
  rewrite all_values_true. unfold presence_map. split.
  - intros Hall t Ht. specialize (Hall t (bool_decide (t ∈ S))).
    rewrite presence_lookup in Hall.
    destruct (decide (t ∈ ref)); [|done].
    eapply bool_decide_eq_true_1, Hall. reflexivity.
  - intros Hall k v. rewrite presence_lookup.
    destruct (decide (k ∈ ref)) as [Hk|Hk]; [|by rewrite lookup_empty].
    intros [= <-]. apply bool_decide_eq_true_2. auto.
Qed.

Lemma match_percentage_bounds S ref :
  (0 <= match_percentage S ref)%Q /\ (match_percentage S ref <= 100)%Q.
Proof.
  unfold match_percentage.
  destruct (0 <? Z.of_nat (length ref))%Z eqn:Hpos.
  - apply Z.ltb_lt in Hpos. apply percent_bounds; [|done].
    unfold matched_count. pose proof (filter_length_le S ref). lia.
  - split; [apply Qle_refl | discriminate].
Qed.

Lemma match_percentage_full S ref :
  ref <> [] ->
  (match_percentage S ref == 100)%Q <-> forall t, t ∈ ref -> t ∈ S.
Proof.
  intros Hne. unfold match_percentage.
  assert (0 < Z.of_nat (length ref))%Z as Hpos by (destruct ref; [done | simpl; lia]).
  rewrite (proj2 (Z.ltb_lt _ _) Hpos), (percent_full _ _ Hpos).
  rewrite <- filter_length_full. unfold matched_count. lia.
Qed.

End MatchingFacts.

(** ** The row evaluator *)

Lemma traverse_ok_length {A B} (f : A -> result B) l ys :
  traverse f l = Ok ys -> length ys = length l.
Proof.
  revert ys. induction l as [|x l IH]; intros ys; simpl.
  - by intros [= <-].
  - destruct (f x) as [y|e]; simpl; [|done].
    destruct (traverse f l) as [ys'|e]; simpl; [|done].
    intros [= <-]. simpl. f_equal. by apply IH.
Qed.

Lemma traverse_ok_lookup {A B} (f : A -> result B) l ys i x :
  traverse f l = Ok ys -> l !! i = Some x ->
  exists y, ys !! i = Some y /\ f x = Ok y.
Proof.
  revert ys i. induction l as [|x' l IH]; intros ys i; simpl; [done|].
  destruct (f x') as [y|e] eqn:Hfx; simpl; [|done].
  destruct (traverse f l) as [ys'|e]; simpl; [|done].
  intros [= <-]. destruct i as [|i]; simpl.
  - intros [= <-]. eauto.
  - intros Hi. by apply IH.
Qed.

Lemma traverse_total {A B} (f : A -> result B) l :
  (forall x, x ∈ l -> exists y, f x = Ok y) -> exists ys, traverse f l = Ok ys.
Proof.
  induction l as [|x l IH]; intros Hall; simpl; [eauto|].
  destruct (Hall x) as [y ->]; [by left|].
  destruct IH as [ys ->]; [intros; apply Hall; by right|].
  simpl. eauto.
Qed.

Lemma traverse_raises {A B} (f : A -> result B) l x e :
  x ∈ l -> f x = Raise e ->
  exists x' e', x' ∈ l /\ f x' = Raise e' /\ traverse f l = Raise e'.
Proof.
  induction l as [|x0 l IH]; intros Hin Hfx; [inversion Hin|].
  simpl. destruct (f x0) as [y|e0] eqn:Hf0; simpl.
  - apply elem_of_cons in Hin as [->|Hin]; [congruence|].
    destruct (IH Hin Hfx) as (x' & e' & Hx' & Hfx' & ->).
    exists x', e'. split; [by right | done].
  - exists x0, e0. split; [by left | done].
Qed.

Section EvaluateFacts.
Variable literal_eval : string -> result pyval.

Lemma evaluate_row_eq acc r :
  evaluate_row acc r
  = Ok (acc.1.1 ++ [(row_outcome r).1.1],
        acc.1.2 ++ [(row_outcome r).1.2],
        acc.2 ++ [(row_outcome r).2]).
Proof.
  destruct acc as [[ps ds] es]. unfold evaluate_row, row_outcome.
  destruct (generated_query (tr_row r)); [|done].
  by rewrite compare_components_eq.
Qed.

Lemma evaluate_rows_eq acc rows :
  evaluate_rows acc rows
  = Ok (acc.1.1 ++ map (fun r => (row_outcome r).1.1) rows,
        acc.1.2 ++ map (fun r => (row_outcome r).1.2) rows,
        acc.2 ++ map (fun r => (row_outcome r).2) rows).
Proof.
  revert acc. induction rows as [|r rows IH]; intros [[ps ds] es];
    cbn [evaluate_rows].
  - simpl. by rewrite !app_nil_r.
  - rewrite evaluate_row_eq. simpl. rewrite IH. simpl.
    by rewrite <- !app_assoc.
Qed.

Lemma token_rows_lookup data ref i r :
  length ref = length data -> data !! i = Some r ->
  exists t,
    ref !! i = Some t /\
    token_rows data (map (fun r => tokenize_sql (generated_query r)) data) ref !! i
    = Some (TokenRow r (tokenize_sql (generated_query r)) t).
Proof.
  intros Hlen Hi. unfold token_rows.
  destruct (lookup_lt_is_Some_2 ref i) as [t Ht].
  { rewrite Hlen. by eapply lookup_lt_Some. }
  exists t. split; [done|].
  rewrite lookup_zip_with, Hi. simpl.
  rewrite lookup_zip_with, list_lookup_fmap, Hi, Ht. done.
Qed.

Lemma token_rows_length data ref :
  length ref = length data ->
  length (token_rows data (map (fun r => tokenize_sql (generated_query r)) data) ref)
  = length data.
Proof.
  intros Hlen. unfold token_rows.
  rewrite length_zip_with, length_zip_with, length_map. lia.
Qed.

(** When every row's [query_toks] decodes, [evaluate_sql] returns one
    outcome per row, the outcome of the row with its token columns. *)
Lemma evaluate_sql_total data :
  (forall r, r ∈ data -> exists t, decode_query_toks literal_eval (query_toks r) = Ok t) ->
  exists ps ds es,
    evaluate_sql literal_eval data = Ok (ps, ds, es) /\
    length ps = length data /\ length ds = length data /\ length es = length data /\
    forall i r, data !! i = Some r ->
      exists t,
        decode_query_toks literal_eval (query_toks r) = Ok t /\
        let o := row_outcome (TokenRow r (tokenize_sql (generated_query r)) t) in
        ps !! i = Some o.1.1 /\ ds !! i = Some o.1.2 /\ es !! i = Some o.2.
Proof.
  intros Hall.
  destruct (traverse_total (fun r => decode_query_toks literal_eval (query_toks r)) data Hall)
    as [ref Href].
  pose proof (traverse_ok_length _ _ _ Href) as Hlen.
  unfold evaluate_sql. rewrite Href. simpl. rewrite evaluate_rows_eq. simpl.
  do 3 eexists. split; [reflexivity|].
  rewrite !length_map, token_rows_length by done.
  repeat split; try done.
  intros i r Hi.
  destruct (traverse_ok_lookup _ _ _ _ _ Href Hi) as (t & Ht & Hdec).
  destruct (token_rows_lookup data ref i r Hlen Hi) as (t' & Ht' & Hrow).
  assert (t' = t) as -> by congruence.
  exists t. split; [done|]. simpl.
  rewrite !list_lookup_fmap, Hrow. done.
Qed.

(** A row whose [query_toks] does not decode makes the whole call raise:
    the column is decoded before any row is scored. *)
Lemma evaluate_sql_raises data r e :
  r ∈ data -> decode_query_toks literal_eval (query_toks r) = Raise e ->
  exists r' e',
    r' ∈ data /\ decode_query_toks literal_eval (query_toks r') = Raise e' /\
    evaluate_sql literal_eval data = Raise e'.
Proof.
  intros Hin Hdec.
  destruct (traverse_raises (fun r => decode_query_toks literal_eval (query_toks r))
              data r e Hin Hdec) as (r' & e' & Hin' & Hdec' & Htr).
  exists r', e'. repeat split; try done.
  unfold evaluate_sql. by rewrite Htr.
Qed.

End EvaluateFacts.

(** ** Claims about the matcher and the row evaluator *)

Lemma match_tokens_same_set `{Countable K} (ref gen gen' : list K) :
  (forall t, t ∈ gen <-> t ∈ gen') -> match_tokens ref gen = match_tokens ref gen'.
Proof.
  intros Hset. rewrite !match_tokens_eq.
  replace (list_to_set gen' : gset K) with (list_to_set gen : gset K); [done|].
  apply set_eq. intros t. rewrite !elem_of_list_to_set. apply Hset.
Qed.

(** C1. The code does not do what the claim says on an empty reference
    sequence: the percentage is 0, but [all] over the empty detail map is
    true, so the exact flag is 1, for the matcher's branch and for a row
    whose decoded reference list is empty. *)
Theorem C1_empty_reference_flagged_exact :
  (forall gen : list string, match_tokens [] gen = Ok (0%Q, ∅, 1%Z)) /\
  (forall literal_eval,
     evaluate_sql literal_eval [Row (Some "SELECT 1"%string) (PyIter [])]
     = Ok ([0%Q], [∅], [1%Z])).
Proof.
  split.
  - intros gen. rewrite match_tokens_eq. reflexivity.
  - intros literal_eval. unfold evaluate_sql. cbn -[evaluate_rows].
    rewrite evaluate_rows_eq. reflexivity.
Qed.

(** C3. The matcher never raises, its percentage lies in [0, 100], and
    for an empty reference sequence the percentage is 0. *)
Theorem C3_percentage_range `{Countable K} (ref gen : list K) :
  (exists p d e,
     match_tokens ref gen = Ok (p, d, e) /\ (0 <= p)%Q /\ (p <= 100)%Q) /\
  (exists d e, match_tokens [] gen = Ok (0%Q, d, e)).
Proof.
  split.
  - rewrite match_tokens_eq. do 3 eexists. split; [reflexivity|].
    apply match_percentage_bounds.
  - rewrite match_tokens_eq. do 2 eexists. reflexivity.
Qed.

(** C4. When the reference sequence is non-empty and each of its
    elements occurs in the generated sequence, the percentage is 100 and
    the exact flag is set. *)
Theorem C4_all_present_full_match `{Countable K} (ref gen : list K) :
  ref <> [] -> (forall t, t ∈ ref -> t ∈ gen) ->
  exists p d, match_tokens ref gen = Ok (p, d, 1%Z) /\ (p == 100)%Q.
Proof.
  intros Hne Hall. rewrite match_tokens_eq.
  assert (forall t, t ∈ ref -> t ∈ (list_to_set gen : gset K)) as Hall'.
  { intros t Ht. apply elem_of_list_to_set. auto. }
  rewrite (proj2 (presence_all _ _) Hall').
  do 2 eexists. split; [reflexivity|].
  by apply match_percentage_full.
Qed.

Lemma C4_all_present_full_match_witness :
  let ref := ["select"; "*"; "from"; "t"]%string in
  let gen := tokenize_sql (Some "SELECT * FROM t WHERE x = 1"%string) in
  ref <> [] /\ (forall t, t ∈ ref -> t ∈ gen) /\
  exists p d, match_tokens ref gen = Ok (p, d, 1%Z) /\ (p == 100)%Q.
Proof.
  intros ref gen.
  assert (ref <> []) as Hne by discriminate.
  assert (forall t, t ∈ ref -> t ∈ gen) as Hall.
  { apply Forall_forall. vm_compute. repeat constructor. }
  split; [exact Hne|]. split; [exact Hall|].
  exact (C4_all_present_full_match ref gen Hne Hall).
Defined.

(** C5. The result does not change when the generated sequence is
    permuted or one of its elements is repeated; repeating an element of
    the reference sequence can change the percentage. *)
Theorem C5_generated_tokens_as_set :
  (forall `{Countable K} (ref gen gen' : list K),
     gen ≡ₚ gen' -> match_tokens ref gen = match_tokens ref gen') /\
  (forall `{Countable K} (ref l1 l2 : list K) (x : K),
     x ∈ l1 ++ l2 ->
     match_tokens ref (l1 ++ x :: l2) = match_tokens ref (l1 ++ l2)) /\
  (exists (ref gen : list string) (x : string) p d e p' d' e',
     x ∈ ref /\
     match_tokens ref gen = Ok (p, d, e) /\
     match_tokens (x :: ref) gen = Ok (p', d', e') /\
     ~ (p == p')%Q).
Proof.
  split; [|split].
  - intros K ? ? ref gen gen' Hperm. apply match_tokens_same_set.
    intros t. by rewrite Hperm.
  - intros K ? ? ref l1 l2 x Hx. apply match_tokens_same_set.
    apply elem_of_app in Hx.
    intros t. rewrite !elem_of_app, elem_of_cons.
    split; [intros [?|[->|?]]|]; tauto.
  - exists ["a"; "b"]%string, ["a"]%string, "a"%string.
    do 6 eexists. split; [by left|].
    rewrite !match_tokens_eq. split; [reflexivity|]. split; [reflexivity|].
    vm_compute. discriminate.
Qed.

Lemma C5_generated_tokens_as_set_witness :
  let ref := ["select"; "a"; "a"]%string in
  (["a"; "b"; "c"]%string ≡ₚ ["c"; "a"; "b"]%string /\
   match_tokens ref ["a"; "b"; "c"]%string = match_tokens ref ["c"; "a"; "b"]%string) /\
  ("b"%string ∈ ["a"]%string ++ ["b"; "c"]%string /\
   match_tokens ref (["a"]%string ++ "b"%string :: ["b"; "c"]%string)
   = match_tokens ref (["a"]%string ++ ["b"; "c"]%string)).
Proof.
  intros ref.
  assert (["a"; "b"; "c"]%string ≡ₚ ["c"; "a"; "b"]%string) as Hperm.
  { change (["a"; "b"]%string ++ ["c"]%string ≡ₚ ["c"]%string ++ ["a"; "b"]%string).
    apply Permutation_app_comm. }
  assert ("b"%string ∈ ["a"]%string ++ ["b"; "c"]%string) as Hin.
  { simpl. right. left. }
  split; (split; [assumption|]).
  - exact (proj1 C5_generated_tokens_as_set string _ _ ref _ _ Hperm).
  - exact (proj1 (proj2 C5_generated_tokens_as_set) string _ _ ref _ _ _ Hin).
Defined.

(** C8, as stated, fails: a row with a missing [generated_query] whose
    [query_toks] cell is missing too (NaN) makes [evaluate_sql] raise a
    TypeError, whatever the parser, because the [query_toks] column is
    decoded for every row before the loop starts. *)
Lemma C8_null_row_with_bad_query_toks_raises :
  exists (data : list row) (i : nat) (r : row),
    data !! i = Some r /\ generated_query r = None /\
    forall literal_eval, evaluate_sql literal_eval data = Raise TypeError.
Proof.
  exists [Row None PyAtom], 0, (Row None PyAtom).
  split; [reflexivity|]. split; [reflexivity|].
  intros literal_eval. reflexivity.
Qed.

(** C8, amended. When the [query_toks] cell of every row decodes,
    [evaluate_sql] returns, and each row with a missing [generated_query]
    gets percentage 0, an empty detail map and exact flag 0, whatever its
    [query_toks] cell decodes to. *)
Theorem C8_null_generated_query_fallback literal_eval (data : list row) :
  (forall r, r ∈ data ->
     exists t, decode_query_toks literal_eval (query_toks r) = Ok t) ->
  exists ps ds es,
    evaluate_sql literal_eval data = Ok (ps, ds, es) /\
    forall i r, data !! i = Some r -> generated_query r = None ->
      ps !! i = Some 0%Q /\ ds !! i = Some ∅ /\ es !! i = Some 0%Z.
Proof.
  intros Hall.
  destruct (evaluate_sql_total literal_eval data Hall)
    as (ps & ds & es & Heval & _ & _ & _ & Hrows).
  exists ps, ds, es. split; [done|].
  intros i r Hi Hnull.
  destruct (Hrows i r Hi) as (t & _ & Hp & Hd & He).
  unfold row_outcome in *. simpl in *. rewrite Hnull in *. done.
Qed.

Lemma C8_null_generated_query_fallback_witness :
  let data := [Row None (PyStr "['SELECT', 'a']");
               Row (Some "select a"%string) (PyIter [PyStr "SELECT"; PyStr "a"])] in
  (forall r, r ∈ data ->
     exists t, decode_query_toks sample_literal_eval (query_toks r) = Ok t) /\
  exists ps ds es,
    evaluate_sql sample_literal_eval data = Ok (ps, ds, es) /\
    forall i r, data !! i = Some r -> generated_query r = None ->
      ps !! i = Some 0%Q /\ ds !! i = Some ∅ /\ es !! i = Some 0%Z.
Proof.
  intros data.
  assert (forall r, r ∈ data ->
     exists t, decode_query_toks sample_literal_eval (query_toks r) = Ok t) as Hall.
  { apply Forall_forall. repeat constructor; eexists; vm_compute; reflexivity. }
  split; [exact Hall|].
  exact (C8_null_generated_query_fallback sample_literal_eval data Hall).
Defined.

Lemma traverse_lower_items (items : list pyval) :
  (exists e, traverse token_lower items = Raise e) <-> existsb no_lower items = true.
Proof.
  induction items as [|x items IH]; simpl.
  - split; [intros [e He]; done | done].
  - destruct x as [w|b|nested|]; simpl.
    + rewrite <- IH. destruct (traverse token_lower items) as [ts|e]; simpl.
      * split; intros [e He]; done.
      * split; eauto.
    + rewrite <- IH. destruct (traverse token_lower items) as [ts|e]; simpl.
      * split; intros [e He]; done.
      * split; eauto.
    + split; eauto.
    + split; eauto.
Qed.

Lemma traverse_lower_chars (cs : list ascii) :
  traverse token_lower (map (fun c => PyStr (String c EmptyString)) cs)
  = Ok (map (fun c => TStr (lower_str (String c EmptyString))) cs).
Proof. induction cs as [|c cs IH]; simpl; [done|]. by rewrite IH. Qed.

(** The decoding of a string cell raises exactly on the outcomes of the
    parser that [undecodable] lists. *)
Lemma decode_raises_iff (literal_eval : string -> result pyval) (s : string) :
  (exists e, decode_query_toks literal_eval (PyStr s) = Raise e)
  <-> undecodable (literal_eval s) = true.
Proof.
  unfold decode_query_toks. destruct (literal_eval s) as [v|e0]; simpl.
  - destruct v as [w|b|items|]; simpl.
    + rewrite traverse_lower_chars. split; [intros [e He]; done | done].
    + destruct b as [|c b]; simpl.
      * split; [intros [e He]; done | done].
      * split; eauto.
    + apply traverse_lower_items.
    + split; eauto.
  - split; eauto.
Qed.

(** C9, as stated, fails: a string cell that holds no sequence of
    strings can decode without an error. The cell [b''] is an empty bytes
    literal; iterating it yields nothing, so the row silently gets an
    empty reference list (and, the generated query being present,
    percentage 0 with the exact flag set). *)
Lemma C9_bytes_cell_decodes_silently :
  (forall l : list string,
     sample_bytes_eval "b''" <> Ok (PyIter (map PyStr l))) /\
  decode_query_toks sample_bytes_eval (PyStr "b''") = Ok [] /\
  evaluate_sql sample_bytes_eval [Row (Some "select a"%string) (PyStr "b''")]
  = Ok ([0%Q], [∅], [1%Z]).
Proof.
  split; [|split].
  - intros l. vm_compute. discriminate.
  - reflexivity.
  - unfold evaluate_sql. cbn -[evaluate_rows]. rewrite evaluate_rows_eq. reflexivity.
Qed.

(** C9, amended. The decoding of a string cell raises exactly when
    [ast.literal_eval] raises on it, or yields a value that cannot be
    iterated, or an iterable one of whose items has no [lower] (a number,
    None, a nested list, the integers of a non-empty bytes literal); a
    row with such a cell makes [evaluate_sql] raise a decoding error of
    the column, and no outputs are produced. *)
Theorem C9_undecodable_cell_raises literal_eval (data : list row)
    (r : row) (s : string) :
  ((exists e, decode_query_toks literal_eval (PyStr s) = Raise e)
   <-> undecodable (literal_eval s) = true) /\
  (r ∈ data -> query_toks r = PyStr s -> undecodable (literal_eval s) = true ->
   exists r' e,
     r' ∈ data /\ decode_query_toks literal_eval (query_toks r') = Raise e /\
     evaluate_sql literal_eval data = Raise e).
Proof.
  split; [apply decode_raises_iff|].
  intros Hin Hcell Hbad.
  apply decode_raises_iff in Hbad as [e Hdec].
  rewrite <- Hcell in Hdec.
  apply (evaluate_sql_raises literal_eval data r e Hin Hdec).
Qed.

Lemma C9_undecodable_cell_raises_witness :
  let bad := Row None (PyStr "[") in
  let data := [Row (Some "select a"%string) (PyStr "['SELECT', 'a']"); bad] in
  bad ∈ data /\ query_toks bad = PyStr "[" /\
  undecodable (sample_literal_eval "[") = true /\
  exists r' e,
    r' ∈ data /\ decode_query_toks sample_literal_eval (query_toks r') = Raise e /\
    evaluate_sql sample_literal_eval data = Raise e.
Proof.
  intros bad data.
  assert (bad ∈ data) as Hin by (right; left).
  assert (undecodable (sample_literal_eval "[") = true) as Hbad by reflexivity.
  split; [exact Hin|]. split; [reflexivity|]. split; [exact Hbad|].
  exact (proj2 (C9_undecodable_cell_raises sample_literal_eval data bad "[")
           Hin eq_refl Hbad).
Defined.

(** C10. When the column decodes, for each row with a present
    [generated_query] and a non-empty decoded reference list the exact
    flag is 1 exactly when the percentage is 100. *)
Theorem C10_exact_flag_iff_full_percentage literal_eval (data : list row) :
  (forall r, r ∈ data ->
     exists t, decode_query_toks literal_eval (query_toks r) = Ok t) ->
  exists ps ds es,
    evaluate_sql literal_eval data = Ok (ps, ds, es) /\
    forall i r g t,
      data !! i = Some r -> generated_query r = Some g ->
      decode_query_toks literal_eval (query_toks r) = Ok t -> t <> [] ->
      exists p e, ps !! i = Some p /\ es !! i = Some e /\
                  (e = 1%Z <-> (p == 100)%Q).
Proof.
  intros Hall.
  destruct (evaluate_sql_total literal_eval data Hall)
    as (ps & ds & es & Heval & _ & _ & _ & Hrows).
  exists ps, ds, es. split; [done|].
  intros i r g t Hi Hgen Hdec Hne.
  destruct (Hrows i r Hi) as (t' & Hdec' & Hp & _ & He).
  assert (t' = t) as -> by congruence.
  unfold row_outcome in Hp, He.
  cbn [tr_row generated_tokens reference_tokens] in Hp, He.
  rewrite Hgen in Hp, He. cbn [fst snd] in Hp, He.
  do 2 eexists. split; [exact Hp|]. split; [exact He|].
  rewrite match_percentage_full by done. rewrite <- presence_all.
  destruct (all_values _); split; (done || lia).
Qed.

Lemma C10_exact_flag_iff_full_percentage_witness :
  let data := [Row (Some "select a"%string) (PyStr "['SELECT', 'a']");
               Row (Some "select b"%string) (PyIter [PyStr "SELECT"; PyStr "a"])] in
  (forall r, r ∈ data ->
     exists t, decode_query_toks sample_literal_eval (query_toks r) = Ok t) /\
  exists ps ds es,
    evaluate_sql sample_literal_eval data = Ok (ps, ds, es) /\
    forall i r g t,
      data !! i = Some r -> generated_query r = Some g ->
      decode_query_toks sample_literal_eval (query_toks r) = Ok t -> t <> [] ->
      exists p e, ps !! i = Some p /\ es !! i = Some e /\
                  (e = 1%Z <-> (p == 100)%Q).
Proof.
  intros data.
  assert (forall r, r ∈ data ->
     exists t, decode_query_toks sample_literal_eval (query_toks r) = Ok t) as Hall.
  { apply Forall_forall. repeat constructor; eexists; vm_compute; reflexivity. }
  split; [exact Hall|].
  exact (C10_exact_flag_iff_full_percentage sample_literal_eval data Hall).
Defined.

Example evaluate_sql_sample :
  match evaluate_sql sample_literal_eval
          [Row (Some "select a"%string) (PyStr "['SELECT', 'a']");
           Row (Some "select b"%string) (PyIter [PyStr "SELECT"; PyStr "a"]);
           Row None (PyStr "[]");
           Row (Some "x"%string) (PyStr "[]")]
  with
  | Ok (ps, ds, es) =>
      Forall2 Qeq ps [100%Q; 50%Q; 0%Q; 0%Q] /\
      map (fun d => d !! TStr "a") ds = [Some true; Some false; None; None] /\
      es = [1%Z; 0%Z; 0%Z; 1%Z]
  | Raise _ => False
  end.
Proof. vm_compute. repeat split; repeat constructor. Qed.

(** ** The pattern matcher *)

Lemma ascii_cases (P : ascii -> bool) :
  forallb P (map ascii_of_nat (seq 0 256)) = true -> forall c, P c = true.
Proof.
  intros Hall c. rewrite forallb_forall in Hall. apply Hall.
  rewrite <- (ascii_nat_embedding c). apply in_map, in_seq.
  pose proof (nat_ascii_bounded c). lia.
Qed.

Lemma space_not_word c : Char.is_space c = true -> Char.is_word c = false.
Proof.
  pose proof (ascii_cases (fun c => implb (Char.is_space c) (negb (Char.is_word c)))) as Hc.
  specialize (Hc ltac:(vm_compute; reflexivity) c). simpl in Hc.
  destruct (Char.is_space c), (Char.is_word c); done.
Qed.

Lemma lower_keeps_word c : Char.is_word (Char.lower c) = Char.is_word c.
Proof.
  pose proof (ascii_cases
    (fun c => Bool.eqb (Char.is_word (Char.lower c)) (Char.is_word c))) as Hc.
  specialize (Hc ltac:(vm_compute; reflexivity) c). simpl in Hc.
  by apply Bool.eqb_prop.
Qed.

Lemma lower_idempotent c : Char.lower (Char.lower c) = Char.lower c.
Proof.
  pose proof (ascii_cases
    (fun c => Ascii.eqb (Char.lower (Char.lower c)) (Char.lower c))) as Hc.
  specialize (Hc ltac:(vm_compute; reflexivity) c). simpl in Hc.
  by apply Ascii.eqb_eq.
Qed.

Lemma not_dot_is_newline c : Char.is_dot c = false -> c = "010"%char.
Proof.
  pose proof (ascii_cases (fun c => Char.is_dot c || Ascii.eqb c "010")) as Hc.
  specialize (Hc ltac:(vm_compute; reflexivity) c). simpl in Hc.
  intros Hdot. rewrite Hdot in Hc. by apply Ascii.eqb_eq.
Qed.

Lemma last_char_nil prev : last_char prev [] = prev.
Proof. reflexivity. Qed.

Lemma last_char_cons prev c a : last_char prev (c :: a) = last_char (Some c) a.
Proof.
  unfold last_char. destruct a as [|c' a]; [done|].
  change (last (c :: c' :: a)) with (last (c' :: a)).
  destruct (last (c' :: a)) eqn:Hl; [done|].
  by apply last_None in Hl.
Qed.

Lemma last_char_app prev a b :
  last_char prev (a ++ b) = last_char (last_char prev a) b.
Proof.
  revert prev. induction a as [|c a IH]; intros prev; [done|].
  simpl. by rewrite !last_char_cons, IH.
Qed.

(** Where a match succeeds, the continuation succeeded on the input left
    after some prefix [a] was read. *)
Lemma star_loop_origin {A} p (k : option ascii -> list ascii -> option A) prev s x :
  star_loop p k prev s = Some x ->
  exists a u, s = a ++ u /\ forallb p a = true /\ k (last_char prev a) u = Some x.
Proof.
  revert prev. induction s as [|c s IH]; intros prev; simpl.
  - intros Hk. by exists [], [].
  - destruct (p c) eqn:Hpc; [|intros Hk; by exists [], (c :: s)].
    destruct (star_loop p k (Some c) s) as [y|] eqn:Hstar.
    + intros [= ->]. destruct (IH _ Hstar) as (a & u & -> & Ha & Hk).
      exists (c :: a), u. rewrite last_char_cons. simpl. by rewrite Hpc.
    + intros Hk. by exists [], (c :: s).
Qed.

Lemma rmatch_origin {A} r (k : option ascii -> list ascii -> option A) prev s x :
  rmatch r k prev s = Some x ->
  exists a u, s = a ++ u /\ k (last_char prev a) u = Some x.
Proof.
  revert k prev s. induction r as [| |p|r1 IH1 r2 IH2|r1 IH1 r2 IH2|p|r IH];
    intros k prev s; simpl.
  - intros Hk. by exists [], s.
  - destruct (at_boundary prev s); [|done]. intros Hk. by exists [], s.
  - destruct s as [|c s]; [done|]. destruct (p c); [|done].
    intros Hk. by exists [c], s.
  - intros Hm. apply IH1 in Hm as (a1 & u1 & -> & Hm).
    apply IH2 in Hm as (a2 & u2 & -> & Hk).
    exists (a1 ++ a2), u2. by rewrite last_char_app, app_assoc.
  - destruct (rmatch r1 k prev s) as [y|] eqn:H1.
    + intros [= ->]. by apply IH1.
    + apply IH2.
  - intros Hm. apply star_loop_origin in Hm as (a & u & -> & _ & Hk). eauto.
  - apply IH.
Qed.

Lemma match_here_suffix r prev s rest :
  match_here r prev s = Some rest -> exists a, s = a ++ rest.
Proof.
  intros Hm. apply rmatch_origin in Hm as (a & u & -> & [= ->]). eauto.
Qed.

(** The scan below a match that is still being skipped. *)
Lemma scan_skip r a prev s :
  scan r (length a) prev (a ++ s) = scan r 0 (last_char prev a) s.
Proof.
  revert prev. induction a as [|c a IH]; intros prev; simpl.
  - by destruct s.
  - by rewrite IH, last_char_cons.
Qed.

Lemma scan_match r prev a rest :
  a <> [] -> match_here r prev (a ++ rest) = Some rest ->
  scan r 0 prev (a ++ rest) = a :: scan r 0 (last_char prev a) rest.
Proof.
  intros Hne Hm. destruct a as [|c a]; [done|].
  simpl. simpl in Hm. rewrite Hm.
  replace (S (length (a ++ rest)) - length rest) with (S (length a))
    by (rewrite length_app; lia).
  simpl. rewrite take_app_length.
  replace (length a - 0) with (length a) by lia.
  by rewrite scan_skip, last_char_cons.
Qed.

Lemma scan_no_match r prev c s :
  match_here r prev (c :: s) = None ->
  scan r 0 prev (c :: s) = scan r 0 (Some c) s.
Proof. intros Hm. simpl. by rewrite Hm. Qed.

(** ** The tokenizer *)

Lemma word_run_split s : s = word_run s ++ after_run s.
Proof.
  induction s as [|c s IH]; simpl; [done|].
  destruct (Char.is_word c); simpl; congruence.
Qed.

Lemma word_run_all s : forallb Char.is_word (word_run s) = true.
Proof.
  induction s as [|c s IH]; simpl; [done|].
  destruct (Char.is_word c) eqn:Hc; simpl; [by rewrite Hc|done].
Qed.

Lemma after_run_head s : is_word_opt (head (after_run s)) = false.
Proof.
  induction s as [|c s IH]; simpl; [done|].
  destruct (Char.is_word c) eqn:Hc; simpl; done.
Qed.

Lemma after_run_length s : length (after_run s) <= length s.
Proof.
  induction s as [|c s IH]; simpl; [done|].
  destruct (Char.is_word c); simpl; lia.
Qed.

Lemma star_word_rest prev s :
  star_loop Char.is_word (fun _ s' => Some s') prev s = Some (after_run s).
Proof.
  revert prev. induction s as [|c s IH]; intros prev; simpl; [done|].
  destruct (Char.is_word c); [|done]. by rewrite IH.
Qed.

Lemma token_match prev c s :
  match_here token_re prev (c :: s)
  = if Char.is_word c then Some (after_run s)
    else if Char.is_space c then None else Some s.
Proof.
  unfold match_here, token_re, Plus. simpl. unfold Char.is_symbol.
  destruct (Char.is_word c); simpl.
  - by rewrite star_word_rest.
  - by destruct (Char.is_space c).
Qed.

Lemma scan_tokens n : forall s prev,
  length s <= n -> Tokens s (scan token_re 0 prev s).
Proof.
  induction n as [|n IH]; intros s prev Hlen.
  - destruct s; [|simpl in Hlen; lia]. constructor.
  - destruct s as [|c s]; [constructor|].
    simpl in Hlen.
    pose proof (token_match prev c s) as Hm.
    destruct (Char.is_word c) eqn:Hw.
    + pose proof (word_run_split s) as Hs.
      assert (c :: s = (c :: word_run s) ++ after_run s) as Hcs
        by (simpl; congruence).
      rewrite Hcs in Hm |- *. rewrite scan_match; [|done|done].
      apply Tokens_word; [done| |apply after_run_head|].
      * simpl. by rewrite Hw, word_run_all.
      * apply IH. pose proof (after_run_length s). lia.
    + destruct (Char.is_space c) eqn:Hsp.
      * rewrite scan_no_match by done.
        apply Tokens_space; [done|]. apply IH. lia.
      * change (c :: s) with ([c] ++ s) in Hm |- *.
        rewrite scan_match; [|done|done].
        apply Tokens_symbol; [done|done|]. apply IH. lia.
Qed.

Lemma Tokens_word_start w s c s' :
  w ++ s = c :: s' -> w <> [] -> forallb Char.is_word w = true ->
  Char.is_word c = true.
Proof.
  destruct w as [|c' w]; [done|]. simpl. intros [= -> _] _.
  by intros [? _]%andb_prop.
Qed.

(** The relation determines the token list. *)
Lemma Tokens_functional s toks1 toks2 :
  Tokens s toks1 -> Tokens s toks2 -> toks1 = toks2.
Proof.
  intros H1. revert toks2.
  induction H1 as [|c s toks Hsp _ IH|c s toks Hw Hsp _ IH|w s toks Hne Hall Hend _ IH];
    intros toks2 H2.
  - inversion H2 as [| | |w' s' toks' Hne' Hall' Hend' Ht' Heq]; [done|].
    by destruct w'.
  - inversion H2 as [|c' s' toks' Hsp' Ht'|c' s' toks' Hw' Hsp' Ht'
                     |w' s' toks' Hne' Hall' Hend' Ht' Heq]; subst.
    + by apply IH.
    + congruence.
    + pose proof (Tokens_word_start _ _ _ _ Heq Hne' Hall') as Hc.
      apply space_not_word in Hsp. congruence.
  - inversion H2 as [|c' s' toks' Hsp' Ht'|c' s' toks' Hw' Hsp' Ht'
                     |w' s' toks' Hne' Hall' Hend' Ht' Heq]; subst.
    + congruence.
    + f_equal. by apply IH.
    + pose proof (Tokens_word_start _ _ _ _ Heq Hne' Hall') as Hc. congruence.
  - assert (forall w1 s1 w2 s2,
              w1 ++ s1 = w2 ++ s2 ->
              forallb Char.is_word w1 = true -> forallb Char.is_word w2 = true ->
              is_word_opt (head s1) = false -> is_word_opt (head s2) = false ->
              w1 = w2 /\ s1 = s2) as Hsplit.
    { clear. induction w1 as [|c1 w1 IH]; intros s1 w2 s2 Heq Ha1 Ha2 He1 He2.
      - destruct w2 as [|c2 w2]; [done|]. simpl in *. subst s1. simpl in He1.
        apply andb_prop in Ha2 as [Hc2 _]. congruence.
      - destruct w2 as [|c2 w2].
        + simpl in *. subst s2. simpl in He2.
          apply andb_prop in Ha1 as [Hc1 _]. congruence.
        + simpl in *. injection Heq as -> Heq.
          apply andb_prop in Ha1 as [_ Ha1]. apply andb_prop in Ha2 as [_ Ha2].
          destruct (IH _ _ _ Heq Ha1 Ha2 He1 He2) as [-> ->]. done. }
    inversion H2 as [|c' s' toks' Hsp' Ht' Heq|c' s' toks' Hw' Hsp' Ht' Heq
                     |w' s' toks' Hne' Hall' Hend' Ht' Heq].
    + by destruct w.
    + symmetry in Heq.
      pose proof (Tokens_word_start _ _ _ _ Heq Hne Hall) as Hc.
      apply space_not_word in Hsp'. congruence.
    + symmetry in Heq.
      pose proof (Tokens_word_start _ _ _ _ Heq Hne Hall) as Hc. congruence.
    + destruct (Hsplit _ _ _ _ Heq Hall' Hall Hend' Hend) as [-> ->].
      f_equal. by apply IH.
Qed.

(** ** Matches and appended text *)

Section Extend.
(** The appended text [t] does not start with a word character. *)
Variable t : list ascii.
Hypothesis t_start : is_word_opt (head t) = false.

Lemma at_boundary_extend prev s : at_boundary prev (s ++ t) = at_boundary prev s.
Proof.
  unfold at_boundary. destruct s as [|c s]; simpl; [|done].
  by rewrite t_start.
Qed.

Lemma star_loop_fallback {A} p (k : option ascii -> list ascii -> option A) prev s :
  is_Some (k prev s) -> is_Some (star_loop p k prev s).
Proof.
  intros Hk. destruct s as [|c s]; simpl; [done|].
  destruct (p c); [|done].
  destruct (star_loop p k (Some c) s); [eauto | done].
Qed.

Lemma star_loop_extend {A B} p
    (k : option ascii -> list ascii -> option A)
    (k' : option ascii -> list ascii -> option B) prev s :
  (forall q u, is_Some (k q u) -> is_Some (k' q (u ++ t))) ->
  is_Some (star_loop p k prev s) -> is_Some (star_loop p k' prev (s ++ t)).
Proof.
  intros Hk. revert prev. induction s as [|c s IH]; intros prev; simpl.
  - intros Hs. apply star_loop_fallback. by apply (Hk prev []).
  - destruct (p c).
    + destruct (star_loop p k (Some c) s) as [x|] eqn:Hstar.
      * intros _. destruct (IH (Some c)) as [y ->]; [by rewrite Hstar|]. eauto.
      * intros Hs. apply (Hk prev (c :: s)) in Hs. simpl in Hs.
        destruct (star_loop p k' (Some c) (s ++ t)); [eauto | done].
    + apply (Hk prev (c :: s)).
Qed.

(** A match that exists in [s] exists in [s ++ t]. *)
Lemma rmatch_extend {A B} r :
  forall (k : option ascii -> list ascii -> option A)
         (k' : option ascii -> list ascii -> option B) prev s,
  (forall q u, is_Some (k q u) -> is_Some (k' q (u ++ t))) ->
  is_Some (rmatch r k prev s) -> is_Some (rmatch r k' prev (s ++ t)).
Proof.
  induction r as [| |p|r1 IH1 r2 IH2|r1 IH1 r2 IH2|p|r IH];
    intros k k' prev s Hk; simpl.
  - apply Hk.
  - rewrite at_boundary_extend. destruct (at_boundary prev s); [apply Hk|done].
  - destruct s as [|c s]; simpl; [by intros []|].
    destruct (p c); [apply Hk | done].
  - apply IH1. intros q u. by apply IH2.
  - destruct (rmatch r1 k prev s) as [x|] eqn:H1.
    + intros _. destruct (IH1 k k' prev s Hk) as [y ->]; [by rewrite H1|]. eauto.
    + intros H2. apply (IH2 k k' prev s Hk) in H2.
      destruct (rmatch r1 k' prev (s ++ t)); [eauto | done].
  - by apply star_loop_extend.
  - by apply IH.
Qed.

Lemma matches_extend r prev s :
  matches r prev s = true -> matches r prev (s ++ t) = true.
Proof.
  unfold matches, match_here. intros Hm.
  destruct (rmatch_extend r (fun _ s' => Some s') (fun _ s' => Some s') prev s)
    as [x Hx].
  - intros q u _. eauto.
  - destruct (rmatch r _ prev s); [eauto | done].
  - by rewrite Hx.
Qed.

Lemma count_positions_head (M : option ascii -> list ascii -> bool) prev s :
  (if M prev s then 1 else 0) <= count_positions M prev s.
Proof. destruct s; simpl; lia. Qed.

Lemma count_positions_extend r prev s :
  count_positions (matches r) prev s <= count_positions (matches r) prev (s ++ t).
Proof.
  revert prev. induction s as [|c s IH]; intros prev.
  - simpl app. etransitivity; [|apply count_positions_head].
    simpl. destruct (matches r prev []) eqn:Hm; [|lia].
    apply matches_extend in Hm. simpl in Hm. rewrite Hm. lia.
  - simpl. specialize (IH (Some c)).
    destruct (matches r prev (c :: s)) eqn:Hm.
    + apply matches_extend in Hm. simpl in Hm. rewrite Hm. lia.
    + destruct (matches r prev (c :: s ++ t)); lia.
Qed.

Lemma line_has_extend r prev s :
  line_has (matches r) prev s = true -> line_has (matches r) prev (s ++ t) = true.
Proof.
  revert prev. induction s as [|c s IH]; intros prev.
  - simpl. rewrite orb_false_r. intros Hm. apply matches_extend in Hm.
    simpl in Hm. destruct t; simpl; by rewrite Hm.
  - simpl. destruct (matches r prev (c :: s)) eqn:Hm.
    + apply matches_extend in Hm. simpl in Hm. by rewrite Hm.
    + simpl. destruct (Char.is_dot c); [|done].
      intros Hl. rewrite (IH _ Hl). by rewrite orb_true_r.
Qed.

End Extend.

(** ** Counting non-overlapping matches by positions *)

Lemma count_positions_skip (M : option ascii -> list ascii -> bool) prev a rest :
  (forall a1 a2, a = a1 ++ a2 -> a2 <> [] ->
     M (last_char prev a1) (a2 ++ rest) = false) ->
  count_positions M prev (a ++ rest) = count_positions M (last_char prev a) rest.
Proof.
  revert prev. induction a as [|c a IH]; intros prev Hnone; [done|].
  pose proof (Hnone [] (c :: a) eq_refl ltac:(done)) as H0.
  rewrite last_char_nil in H0. simpl in H0. simpl. rewrite H0. simpl.
  rewrite last_char_cons. apply IH.
  intros a1 a2 -> Ha2. rewrite <- (last_char_cons prev).
  by apply (Hnone (c :: a1) a2).
Qed.

Section ScanCount.
Variable r : regex.

(** Matches of [r] are not empty, and [r] matches at no position inside
    one of its matches. *)
Hypothesis no_overlap : forall prev s rest,
  match_here r prev s = Some rest ->
  exists a, s = a ++ rest /\ a <> [] /\
    forall a1 a2, a = a1 ++ a2 -> a1 <> [] -> a2 <> [] ->
      match_here r (last_char prev a1) (a2 ++ rest) = None.

Lemma scan_count_positions_fuel n : forall prev s,
  length s <= n ->
  length (scan r 0 prev s) = count_positions (matches r) prev s.
Proof.
  induction n as [|n IH]; intros prev s Hlen.
  - destruct s; [|simpl in Hlen; lia].
    simpl. unfold matches. destruct (match_here r prev []) as [rest|] eqn:Hm; [|done].
    apply no_overlap in Hm as (a & Heq & Hne & _). by destruct a.
  - destruct s as [|c s].
    { apply IH. simpl. lia. }
    destruct (match_here r prev (c :: s)) as [rest|] eqn:Hm.
    + destruct (no_overlap _ _ _ Hm) as (a & Heq & Hne & Hin).
      rewrite Heq in Hm |- *. rewrite scan_match by done.
      destruct a as [|c' a]; [done|]. simpl.
      unfold matches at 1. simpl in Hm. rewrite Hm. simpl. f_equal.
      rewrite IH.
      2:{ simpl in Heq. injection Heq as _ ->. simpl in Hlen.
          rewrite length_app in Hlen. lia. }
      rewrite last_char_cons. symmetry. apply count_positions_skip.
      intros a1 a2 -> Ha2. unfold matches.
      rewrite <- (last_char_cons prev), (Hin (c' :: a1) a2); done.
    + rewrite scan_no_match by done. simpl. unfold matches at 1. rewrite Hm.
      simpl. apply IH. simpl in Hlen. lia.
Qed.

Lemma scan_count_positions prev s :
  length (scan r 0 prev s) = count_positions (matches r) prev s.
Proof. by apply (scan_count_positions_fuel (length s)). Qed.

End ScanCount.

(** ** Keyword patterns *)

Lemma strip_prefix_app w s rest : strip_prefix w s = Some rest -> s = w ++ rest.
Proof.
  revert s. induction w as [|c w IH]; intros s; simpl.
  - by intros [= ->].
  - destruct s as [|d s]; [done|].
    destruct (Ascii.eqb_spec c d) as [->|]; [|done].
    intros Hs. by rewrite (IH _ Hs).
Qed.

Lemma strip_prefix_self w rest : strip_prefix w (w ++ rest) = Some rest.
Proof.
  induction w as [|c w IH]; simpl; [done|]. by rewrite Ascii.eqb_refl.
Qed.

Lemma rmatch_lit {A} w (k : option ascii -> list ascii -> option A) prev s :
  rmatch (lit_chars w) k prev s
  = match strip_prefix w s with
    | Some rest => k (last_char prev w) rest
    | None => None
    end.
Proof.
  revert prev s. induction w as [|c w IH]; intros prev s; simpl; [done|].
  destruct s as [|d s]; [done|].
  destruct (Ascii.eqb_spec c d) as [->|]; [|done].
  by rewrite IH, last_char_cons.
Qed.

Lemma rmatch_any_of {A} first others
    (k : option ascii -> list ascii -> option A) prev s :
  rmatch (any_of first others) k prev s
  = try_words (map list_ascii_of_string (first :: others)) k prev s.
Proof.
  revert first. induction others as [|o others IH]; intros first.
  - simpl. unfold lit. rewrite rmatch_lit.
    by destruct (strip_prefix _ s) as [rest|]; [destruct (k _ rest)|].
  - cbn [any_of rmatch]. unfold lit at 1. rewrite rmatch_lit, IH. done.
Qed.

Lemma match_here_keywords first others prev s :
  match_here (keywords_re first others) prev s
  = match_words (map list_ascii_of_string (first :: others)) prev s.
Proof.
  unfold match_here, keywords_re, seq_of, match_words.
  cbn [fold_right rmatch]. by rewrite rmatch_any_of.
Qed.

Lemma match_here_keyword kw prev s :
  match_here (keyword_re kw) prev s
  = match_words [list_ascii_of_string kw] prev s.
Proof.
  unfold match_here, keyword_re, seq_of, match_words.
  cbn [fold_right rmatch]. unfold lit. rewrite rmatch_lit. simpl.
  destruct (at_boundary prev s); [|done].
  destruct (strip_prefix _ s) as [rest|]; [|done].
  by destruct (at_boundary _ rest).
Qed.

Lemma try_words_found ws prev s rest :
  try_words ws (fun p u => if at_boundary p u then Some u else None) prev s
  = Some rest ->
  exists w, w ∈ ws /\ strip_prefix w s = Some rest /\
            at_boundary (last_char prev w) rest = true.
Proof.
  induction ws as [|w ws IH]; simpl; [done|].
  destruct (strip_prefix w s) as [rest'|] eqn:Hs.
  - destruct (at_boundary (last_char prev w) rest') eqn:Hb.
    + intros [= ->]. exists w. split; [by left | done].
    + intros Hm. destruct (IH Hm) as (w' & Hin & Hw'). exists w'.
      split; [by right | done].
  - intros Hm. destruct (IH Hm) as (w' & Hin & Hw'). exists w'.
    split; [by right | done].
Qed.

Lemma try_words_none {A} ws (k : option ascii -> list ascii -> option A) prev s :
  (forall w, w ∈ ws -> strip_prefix w s = None) -> try_words ws k prev s = None.
Proof.
  induction ws as [|w ws IH]; intros Hnone; simpl; [done|].
  rewrite (Hnone w) by (by left). apply IH. intros w' Hw'. apply Hnone. by right.
Qed.

Lemma matches_words ws prev s :
  match match_words ws prev s with Some _ => true | None => false end
  = existsb (fun w => delimited w prev s) ws.
Proof.
  unfold match_words, delimited.
  destruct (at_boundary prev s); simpl.
  - induction ws as [|w ws IH]; simpl; [done|].
    destruct (strip_prefix w s) as [rest|]; [|done].
    by destruct (at_boundary (last_char prev w) rest).
  - induction ws as [|w ws IH]; simpl; done.
Qed.

Lemma inner_ok_at ws p b c b' :
  inner_ok ws p (b ++ c :: b') = true ->
  exists q, last_char (Some p) b = Some q /\
    (negb (xorb (Char.is_word q) (Char.is_word c))
     || forallb (fun w' => match w' with
                           | [] => false
                           | c' :: _ => negb (Ascii.eqb c' c)
                           end) ws) = true.
Proof.
  revert p. induction b as [|d b IH]; intros p; simpl.
  - intros [Hc _]%andb_prop. by exists p.
  - intros [_ Hrest]%andb_prop. rewrite last_char_cons. by apply IH.
Qed.

Lemma match_words_no_overlap ws :
  keywords_ok ws = true ->
  forall prev s rest,
    match_words ws prev s = Some rest ->
    exists a, s = a ++ rest /\ a <> [] /\
      forall a1 a2, a = a1 ++ a2 -> a1 <> [] -> a2 <> [] ->
        match_words ws (last_char prev a1) (a2 ++ rest) = None.
Proof.
  intros Hok prev s rest Hm. unfold match_words in Hm.
  destruct (at_boundary prev s); [|done].
  apply try_words_found in Hm as (w & Hin & Hs & _).
  apply strip_prefix_app in Hs as ->.
  unfold keywords_ok in Hok. rewrite forallb_forall in Hok.
  specialize (Hok w (proj1 (list_elem_of_In _ _) Hin)).
  destruct w as [|c0 w']; [done|].
  exists (c0 :: w'). split; [done|]. split; [done|].
  intros a1 a2 Heq Ha1 Ha2.
  destruct a1 as [|c1 b]; [done|]. destruct a2 as [|c a2']; [done|].
  simpl in Heq. injection Heq as <- ->.
  apply inner_ok_at in Hok as (q & Hq & Hcheck).
  rewrite last_char_cons, Hq. unfold match_words.
  simpl app. unfold at_boundary at 1. simpl.
  destruct (xorb (Char.is_word q) (Char.is_word c)); [|done].
  simpl in Hcheck. apply try_words_none.
  intros w Hw. rewrite forallb_forall in Hcheck.
  specialize (Hcheck w (proj1 (list_elem_of_In _ _) Hw)).
  destruct w as [|c' w]; [done|]. simpl.
  by destruct (Ascii.eqb c' c).
Qed.

Lemma count_positions_ext (M N : option ascii -> list ascii -> bool) prev s :
  (forall p u, M p u = N p u) -> count_positions M prev s = count_positions N prev s.
Proof.
  intros Hext. revert prev. induction s as [|c s IH]; intros prev; simpl.
  - by rewrite Hext.
  - by rewrite Hext, IH.
Qed.


Lemma count_keyword kw s :
  keywords_ok [list_ascii_of_string kw] = true ->
  length (findall (keyword_re kw) s)
  = count_positions (delimited (list_ascii_of_string kw)) None s.
Proof.
  intros Hok. unfold findall. rewrite scan_count_positions.
  - apply count_positions_ext. intros p u. unfold matches.
    rewrite match_here_keyword, matches_words. simpl. by rewrite orb_false_r.
  - intros prev u rest. rewrite match_here_keyword. intros Hm.
    destruct (match_words_no_overlap _ Hok _ _ _ Hm) as (a & -> & Hne & Hin).
    exists a. split; [done|]. split; [done|].
    intros a1 a2 Ha Ha1 Ha2. rewrite match_here_keyword. by apply Hin.
Qed.

Lemma word_prefix_unique w1 s1 w2 s2 :
  w1 ++ s1 = w2 ++ s2 ->
  forallb Char.is_word w1 = true -> forallb Char.is_word w2 = true ->
  is_word_opt (head s1) = false -> is_word_opt (head s2) = false ->
  w1 = w2.
Proof.
  revert s1 w2 s2. induction w1 as [|c1 w1 IH]; intros s1 w2 s2 Heq Ha1 Ha2 He1 He2.
  - destruct w2 as [|c2 w2]; [done|]. simpl in *. subst s1. simpl in He1.
    apply andb_prop in Ha2 as [Hc2 _]. congruence.
  - destruct w2 as [|c2 w2].
    + simpl in *. subst s2. simpl in He2.
      apply andb_prop in Ha1 as [Hc1 _]. congruence.
    + simpl in *. injection Heq as -> Heq.
      apply andb_prop in Ha1 as [_ Ha1]. apply andb_prop in Ha2 as [_ Ha2].
      f_equal. by apply (IH _ _ _ Heq).
Qed.

Lemma last_char_word prev w :
  w <> [] -> forallb Char.is_word w = true -> is_word_opt (last_char prev w) = true.
Proof.
  revert prev. induction w as [|c w IH]; intros prev Hne Hall; [done|].
  simpl in Hall. apply andb_prop in Hall as [Hc Hall].
  rewrite last_char_cons. destruct w as [|c' w]; [done|]. by apply IH.
Qed.

Lemma delimited_word_end w prev s :
  w <> [] -> forallb Char.is_word w = true -> delimited w prev s = true ->
  exists rest, s = w ++ rest /\ is_word_opt (head rest) = false.
Proof.
  intros Hne Hall Hd. unfold delimited in Hd.
  apply andb_prop in Hd as [_ Hd].
  destruct (strip_prefix w s) as [rest|] eqn:Hs; [|done].
  exists rest. split; [by apply strip_prefix_app|].
  unfold at_boundary in Hd. rewrite (last_char_word prev w Hne Hall) in Hd.
  by destruct (is_word_opt (head rest)).
Qed.







(** ** Claims about the tokenizer and the classifier *)

(** C2. The raw tokens of a string are those the specification
    describes: nothing for whitespace, one token per character that is
    neither a word character nor whitespace, one token per maximal run of
    word characters, in the order of the text; [tokenize_sql] returns
    them lower-cased. The scenario of the specification evaluates as
    stated. *)
Theorem C2_tokenize_runs_and_symbols :
  (forall sql : string, exists raw, Tokens (list_ascii_of_string sql) raw) /\
  (forall (sql : string) raw,
     Tokens (list_ascii_of_string sql) raw ->
     tokenize_sql (Some sql)
     = map (fun tok => string_of_list_ascii (lower tok)) raw) /\
  tokenize_sql (Some "SELECT a FROM t WHERE a>=1"%string)
  = ["select"; "a"; "from"; "t"; "where"; "a"; ">"; "="; "1"]%string.
Proof.
  split; [|split].
  - intros sql. eexists. by apply (scan_tokens _ _ None (Nat.le_refl _)).
  - intros sql raw Hraw. unfold tokenize_sql, findall. f_equal.
    apply (Tokens_functional (list_ascii_of_string sql)); [|done].
    by apply (scan_tokens _ _ None (Nat.le_refl _)).
  - vm_compute. reflexivity.
Qed.

Lemma C2_tokenize_runs_and_symbols_witness :
  let raw := map list_ascii_of_string ["Ab_1"; ">"; "="; "x"]%string in
  Tokens (list_ascii_of_string "Ab_1>= x") raw /\
  tokenize_sql (Some "Ab_1>= x"%string)
  = map (fun tok => string_of_list_ascii (lower tok)) raw.
Proof.
  intros raw.
  assert (Tokens (list_ascii_of_string "Ab_1>= x") raw) as Hraw.
  { apply (Tokens_word (list_ascii_of_string "Ab_1")); [done|reflexivity|reflexivity|].
    apply Tokens_symbol; [reflexivity|reflexivity|].
    apply Tokens_symbol; [reflexivity|reflexivity|].
    apply Tokens_space; [reflexivity|].
    apply (Tokens_word (list_ascii_of_string "x") []); [done|reflexivity|reflexivity|].
    apply Tokens_nil. }
  split; [exact Hraw|].
  exact (proj1 (proj2 C2_tokenize_runs_and_symbols) "Ab_1>= x"%string raw Hraw).
Defined.







(** ** The nested-select pattern *)

Lemma subquery_split {A} (k : option ascii -> list ascii -> option A) prev s :
  rmatch subquery_re k prev s
  = rmatch subquery_head
      (fun p u => star_loop Char.is_dot
                    (fun p' u' => rmatch (keyword_re "from") k p' u') p u)
      prev s.
Proof. reflexivity. Qed.

Lemma class_line_bound (p : ascii -> bool) c :
  forallb (fun c => implb (p c) (Char.is_dot c)) (map ascii_of_nat (seq 0 256)) = true ->
  p c = true -> Char.is_dot c = true.
Proof.
  intros Hall Hp.
  pose proof (ascii_cases (fun c => implb (p c) (Char.is_dot c)) Hall c) as Hc.
  simpl in Hc. by rewrite Hp in Hc.
Qed.

Lemma forallb_weaken (p q : ascii -> bool) a :
  (forall c, p c = true -> q c = true) -> forallb p a = true -> forallb q a = true.
Proof.
  intros Hpq. induction a as [|c a IH]; simpl; [done|].
  intros [Hc Ha]%andb_prop. by rewrite (Hpq c Hc), IH.
Qed.

(** A match of a line-bound pattern reads no line feed. *)
Lemma rmatch_origin_line {A} r (k : option ascii -> list ascii -> option A) prev s x :
  line_bound r = true -> rmatch r k prev s = Some x ->
  exists a u, s = a ++ u /\ forallb Char.is_dot a = true /\
              k (last_char prev a) u = Some x.
Proof.
  revert k prev s. induction r as [| |p|r1 IH1 r2 IH2|r1 IH1 r2 IH2|p|r IH];
    intros k prev s Hlb; simpl in *.
  - intros Hk. by exists [], s.
  - destruct (at_boundary prev s); [|done]. intros Hk. by exists [], s.
  - destruct s as [|c s]; [done|]. destruct (p c) eqn:Hpc; [|done].
    intros Hk. exists [c], s. simpl.
    by rewrite (class_line_bound p c Hlb Hpc).
  - apply andb_prop in Hlb as [Hlb1 Hlb2].
    intros Hm. apply IH1 in Hm as (a1 & u1 & -> & Ha1 & Hm); [|done].
    apply IH2 in Hm as (a2 & u2 & -> & Ha2 & Hk); [|done].
    exists (a1 ++ a2), u2. rewrite last_char_app, app_assoc, forallb_app.
    by rewrite Ha1, Ha2.
  - apply andb_prop in Hlb as [Hlb1 Hlb2].
    destruct (rmatch r1 k prev s) as [y|] eqn:H1.
    + intros [= ->]. by apply IH1.
    + by apply IH2.
  - intros Hm. apply star_loop_origin in Hm as (a & u & -> & Ha & Hk).
    exists a, u. split; [done|]. split; [|done].
    apply (forallb_weaken p); [|done]. intros c. by apply class_line_bound.
  - by apply IH.
Qed.

Lemma star_loop_none {A} (k : option ascii -> list ascii -> option A) prev s :
  star_loop Char.is_dot k prev s = None ->
  line_has (fun p u => match k p u with Some _ => true | None => false end) prev s
  = false.
Proof.
  revert prev. induction s as [|c s IH]; intros prev; simpl.
  - by intros ->.
  - destruct (Char.is_dot c).
    + destruct (star_loop Char.is_dot k (Some c) s) eqn:Hstar; [done|].
      intros ->. simpl. by apply IH.
    + by intros ->.
Qed.

(** The greedy star stops at the last position of the line where the
    continuation succeeds. *)
Lemma star_loop_last {A} (k : option ascii -> list ascii -> option A) prev s x :
  star_loop Char.is_dot k prev s = Some x ->
  exists a u, s = a ++ u /\ forallb Char.is_dot a = true /\
    k (last_char prev a) u = Some x /\
    match u with
    | c :: u' =>
        Char.is_dot c = true ->
        line_has (fun p u => match k p u with Some _ => true | None => false end)
          (Some c) u' = false
    | [] => True
    end.
Proof.
  revert prev. induction s as [|c s IH]; intros prev; simpl.
  - intros Hk. by exists [], [].
  - destruct (Char.is_dot c) eqn:Hc.
    + destruct (star_loop Char.is_dot k (Some c) s) as [y|] eqn:Hstar.
      * intros [= ->]. destruct (IH _ Hstar) as (a & u & -> & Ha & Hk & Hlast).
        exists (c :: a), u. rewrite last_char_cons. simpl. by rewrite Hc.
      * intros Hk. exists [], (c :: s). repeat split; try done.
        intros _. by apply star_loop_none.
    + intros Hk. exists [], (c :: s). repeat split; try done. congruence.
Qed.

Lemma line_has_app_false (M : option ascii -> list ascii -> bool) prev a u :
  forallb Char.is_dot a = true ->
  line_has M prev (a ++ u) = false -> line_has M (last_char prev a) u = false.
Proof.
  revert prev. induction a as [|c a IH]; intros prev; simpl; [done|].
  intros [Hc Ha]%andb_prop. rewrite Hc.
  intros [_ Hl]%orb_false_elim. rewrite last_char_cons. by apply IH.
Qed.

Lemma line_has_reach (M : option ascii -> list ascii -> bool) prev a u :
  forallb Char.is_dot a = true ->
  M (last_char prev a) u = true -> line_has M prev (a ++ u) = true.
Proof.
  revert prev. induction a as [|c a IH]; intros prev; simpl.
  - intros _ Hm. rewrite last_char_nil in Hm. destruct u; simpl; by rewrite Hm.
  - intros [Hc Ha]%andb_prop. rewrite Hc, last_char_cons.
    intros Hm. rewrite (IH _ Ha Hm). apply orb_true_r.
Qed.

Lemma line_has_pointwise (M N : option ascii -> list ascii -> bool) prev s :
  (forall p u, M p u = true -> line_has N p u = true) ->
  line_has M prev s = true -> line_has N prev s = true.
Proof.
  intros HMN. revert prev. induction s as [|c s IH]; intros prev.
  - simpl. rewrite orb_false_r. intros Hm. by apply (HMN prev []).
  - intros Hl. simpl in Hl. apply orb_prop in Hl as [Hm|Hl].
    + by apply HMN.
    + simpl. destruct (Char.is_dot c); [|done].
      rewrite (IH _ Hl). apply orb_true_r.
Qed.

Lemma after_line_app_dot a u :
  forallb Char.is_dot a = true -> after_line (a ++ u) = after_line u.
Proof.
  induction a as [|c a IH]; simpl; [done|].
  intros [Hc Ha]%andb_prop. rewrite Hc. by apply IH.
Qed.

Lemma after_line_length s : length (after_line s) <= pred (length s).
Proof.
  induction s as [|c s IH]; simpl; [done|].
  destruct (Char.is_dot c); lia.
Qed.

Lemma after_line_app s t :
  after_line (s ++ t) = after_line s ++ t \/ after_line s = [].
Proof.
  induction s as [|c s IH]; simpl; [by right|].
  destruct (Char.is_dot c); [done | by left].
Qed.

Lemma from_line_bound : line_bound subquery_head = true.
Proof. vm_compute. reflexivity. Qed.

Lemma match_from prev u rest :
  match_here (keyword_re "from") prev u = Some rest ->
  u = list_ascii_of_string "from" ++ rest.
Proof.
  rewrite match_here_keyword. unfold match_words.
  destruct (at_boundary prev u); [|done].
  intros (w & Hin & Hs & _)%try_words_found.
  apply list_elem_of_singleton in Hin as ->. by apply strip_prefix_app.
Qed.

(** After a match of the pattern, no [from] stands delimited in the
    rest of the line. *)
Lemma subquery_match_last prev s rest :
  match_here subquery_re prev s = Some rest ->
  exists a, s = a ++ rest /\ a <> [] /\ forallb Char.is_dot a = true /\
    line_has (matches (keyword_re "from")) (last_char prev a) rest = false.
Proof.
  unfold match_here. rewrite subquery_split. intros Hm.
  apply rmatch_origin_line in Hm as (a1 & u1 & -> & Ha1 & Hm);
    [|apply from_line_bound].
  apply star_loop_last in Hm as (a2 & u2 & -> & Ha2 & Hk & Hlast).
  pose proof (match_from _ _ _ Hk) as ->.
  exists (a1 ++ a2 ++ list_ascii_of_string "from").
  split; [by rewrite <- !app_assoc|].
  split; [by destruct a1, a2|].
  split; [by rewrite !forallb_app, Ha1, Ha2|].
  simpl in Hlast. specialize (Hlast eq_refl).
  rewrite !last_char_app.
  change (list_ascii_of_string "from") with ("f"%char :: list_ascii_of_string "rom").
  rewrite last_char_cons.
  apply (line_has_app_false _ (Some "f"%char) (list_ascii_of_string "rom"));
    [reflexivity | exact Hlast].
Qed.

Lemma subquery_needs_from prev s :
  line_has (matches subquery_re) prev s = true ->
  line_has (matches (keyword_re "from")) prev s = true.
Proof.
  apply line_has_pointwise. intros p u. unfold matches at 1, match_here.
  rewrite subquery_split.
  destruct (rmatch subquery_head _ p u) as [x|] eqn:Hm; [|done]. intros _.
  apply rmatch_origin_line in Hm as (a1 & u1 & -> & Ha1 & Hm);
    [|apply from_line_bound].
  apply star_loop_origin in Hm as (a2 & u2 & -> & Ha2 & Hk).
  rewrite app_assoc. apply line_has_reach; [by rewrite forallb_app, Ha1, Ha2|].
  unfold matches, match_here. by rewrite last_char_app, Hk.
Qed.

(** The pattern matches at most once per line. *)
Lemma subquery_count_lines n : forall prev s,
  length s <= n ->
  length (scan subquery_re 0 prev s)
  = (if line_has (matches subquery_re) prev s then 1 else 0)
    + length (scan subquery_re 0 (Some "010"%char) (after_line s)).
Proof.
  induction n as [|n IH]; intros prev s Hlen.
  - destruct s; [|simpl in Hlen; lia].
    simpl. unfold matches.
    destruct (match_here subquery_re prev []) as [rest|] eqn:Hm.
    + apply subquery_match_last in Hm as (a & Heq & Hne & _). by destruct a.
    + simpl. by destruct (match_here subquery_re (Some "010"%char) []).
  - destruct s as [|c s].
    { apply IH. simpl. lia. }
    destruct (match_here subquery_re prev (c :: s)) as [rest|] eqn:Hm.
    + destruct (subquery_match_last _ _ _ Hm) as (a & Heq & Hne & Ha & Hfrom).
      rewrite Heq in Hm |- *. rewrite scan_match by done.
      assert (length rest <= n) as Hrest.
      { apply (f_equal length) in Heq. rewrite length_app in Heq. simpl in *.
        destruct a; [done|]. simpl in Heq. lia. }
      cbn [length]. rewrite (IH _ _ Hrest).
      destruct (line_has (matches subquery_re) (last_char prev a) rest) eqn:Hsub.
      { apply subquery_needs_from in Hsub. congruence. }
      rewrite after_line_app_dot by done.
      assert (line_has (matches subquery_re) prev (a ++ rest) = true) as ->; [|lia].
      destruct a as [|c' a]; [done|]. simpl. unfold matches at 1.
      simpl in Hm. by rewrite Hm.
    + rewrite scan_no_match by done. cbn [line_has after_line].
      unfold matches at 1. rewrite Hm. simpl orb.
      destruct (Char.is_dot c) eqn:Hc.
      * apply IH. simpl in Hlen. lia.
      * apply not_dot_is_newline in Hc as ->. simpl. done.
Qed.

Lemma subquery_scan_nil prev : scan subquery_re 0 prev [] = [].
Proof.
  simpl. destruct (match_here subquery_re prev []) as [rest|] eqn:Hm; [|done].
  apply subquery_match_last in Hm as (a & Heq & Hne & _). by destruct a.
Qed.

Lemma subquery_extend t n : forall prev s,
  is_word_opt (head t) = false -> length s <= n ->
  length (scan subquery_re 0 prev s) <= length (scan subquery_re 0 prev (s ++ t)).
Proof.
  induction n as [|n IH]; intros prev s Ht Hlen.
  - destruct s; [|simpl in Hlen; lia]. rewrite subquery_scan_nil. simpl. lia.
  - destruct s as [|c s]; [rewrite subquery_scan_nil; simpl; lia|].
    rewrite (subquery_count_lines _ prev (c :: s) (Nat.le_refl _)).
    rewrite (subquery_count_lines _ prev ((c :: s) ++ t) (Nat.le_refl _)).
    assert ((if line_has (matches subquery_re) prev (c :: s) then 1 else 0)
            <= (if line_has (matches subquery_re) prev ((c :: s) ++ t) then 1 else 0))
      as Hline.
    { destruct (line_has (matches subquery_re) prev (c :: s)) eqn:Hl; [|lia].
      by rewrite (line_has_extend t Ht _ _ _ Hl). }
    destruct (after_line_app (c :: s) t) as [Heq|Heq]; rewrite Heq.
    + pose proof (after_line_length (c :: s)) as Hal.
      cbn [length pred] in Hal, Hlen.
      specialize (IH (Some "010"%char) (after_line (c :: s)) Ht ltac:(lia)). lia.
    + rewrite subquery_scan_nil. simpl length. lia.
Qed.

(** ** The score under appended text *)

Lemma split_from_nonempty cur s : cur <> [] -> 1 <= length (split_from cur s).
Proof.
  revert cur. induction s as [|c s IH]; intros cur Hne; simpl.
  - destruct cur; [done | simpl; lia].
  - destruct (Char.is_space c).
    + destruct cur; [done | simpl; lia].
    + by apply IH.
Qed.

Lemma split_from_extend cur s t :
  length (split_from cur s) <= length (split_from cur (s ++ t)).
Proof.
  revert cur. induction s as [|c s IH]; intros cur; simpl.
  - destruct cur as [|c cur]; [simpl; lia|].
    simpl length. by apply split_from_nonempty.
  - destruct (Char.is_space c); [|apply IH].
    destruct cur; simpl; [apply IH|]. specialize (IH []). lia.
Qed.

Lemma list_ascii_of_string_app (s1 s2 : string) :
  list_ascii_of_string (s1 ++ s2) = list_ascii_of_string s1 ++ list_ascii_of_string s2.
Proof. induction s1 as [|c s1 IH]; simpl; [done|]. by rewrite IH. Qed.

Lemma lower_app a b : lower (a ++ b) = lower a ++ lower b.
Proof. apply map_app. Qed.

Lemma lower_head_word t :
  is_word_opt (head t) = false -> is_word_opt (head (lower t)) = false.
Proof. destruct t as [|c t]; simpl; [done|]. by rewrite lower_keeps_word. Qed.

Section ScoreExtend.
Variables q t : list ascii.
Hypothesis t_start : is_word_opt (head t) = false.

Lemma count_keyword_extend kw :
  keywords_ok [list_ascii_of_string kw] = true ->
  (count (keyword_re kw) q <= count (keyword_re kw) (q ++ t))%Z.
Proof.
  intros Hok. unfold count, findall.
  assert (forall prev s rest,
            match_here (keyword_re kw) prev s = Some rest ->
            exists a, s = a ++ rest /\ a <> [] /\
              forall a1 a2, a = a1 ++ a2 -> a1 <> [] -> a2 <> [] ->
                match_here (keyword_re kw) (last_char prev a1) (a2 ++ rest) = None)
    as Hno.
  { intros prev u rest. rewrite match_here_keyword. intros Hm.
    destruct (match_words_no_overlap _ Hok _ _ _ Hm) as (a & -> & Hne & Hin).
    exists a. split; [done|]. split; [done|].
    intros a1 a2 Ha Ha1 Ha2. rewrite match_here_keyword. by apply Hin. }
  rewrite !scan_count_positions by done.
  apply Nat2Z.inj_le. by apply count_positions_extend.
Qed.

Lemma count_keywords_extend first others :
  keywords_ok (map list_ascii_of_string (first :: others)) = true ->
  (count (keywords_re first others) q <= count (keywords_re first others) (q ++ t))%Z.
Proof.
  intros Hok. unfold count, findall.
  assert (forall prev s rest,
            match_here (keywords_re first others) prev s = Some rest ->
            exists a, s = a ++ rest /\ a <> [] /\
              forall a1 a2, a = a1 ++ a2 -> a1 <> [] -> a2 <> [] ->
                match_here (keywords_re first others) (last_char prev a1) (a2 ++ rest)
                = None)
    as Hno.
  { intros prev u rest. rewrite match_here_keywords. intros Hm.
    destruct (match_words_no_overlap _ Hok _ _ _ Hm) as (a & -> & Hne & Hin).
    exists a. split; [done|]. split; [done|].
    intros a1 a2 Ha Ha1 Ha2. rewrite match_here_keywords. by apply Hin. }
  rewrite !scan_count_positions by done.
  apply Nat2Z.inj_le. by apply count_positions_extend.
Qed.

Lemma count_subquery_extend :
  (count subquery_re q <= count subquery_re (q ++ t))%Z.
Proof.
  unfold count, findall. apply Nat2Z.inj_le.
  by apply (subquery_extend t (length q)).
Qed.

Lemma word_count_extend :
  (Z.of_nat (length (split q)) / 50 <= Z.of_nat (length (split (q ++ t))) / 50)%Z.
Proof.
  apply Z.div_le_mono; [lia|]. apply Nat2Z.inj_le. apply split_from_extend.
Qed.

End ScoreExtend.





(** * Further properties of the code *)

(** ** tokenize_sql *)

Lemma lower_keeps_space c : Char.is_space (Char.lower c) = Char.is_space c.
Proof.
  pose proof (ascii_cases
    (fun c => Bool.eqb (Char.is_space (Char.lower c)) (Char.is_space c))) as Hc.
  specialize (Hc ltac:(vm_compute; reflexivity) c). simpl in Hc.
  by apply Bool.eqb_prop.
Qed.

Lemma lower_idem s : lower (lower s) = lower s.
Proof.
  unfold lower. rewrite map_map. apply map_ext. apply lower_idempotent.
Qed.

Lemma forallb_word_lower w :
  forallb Char.is_word (lower w) = forallb Char.is_word w.
Proof.
  induction w as [|c w IH]; simpl; [done|]. by rewrite lower_keeps_word, IH.
Qed.

Lemma raw_tokens_spec (s : list ascii) : Tokens s (findall token_re s).
Proof. by apply (scan_tokens _ _ None (Nat.le_refl _)). Qed.

(** Lower-casing the text lower-cases its raw tokens. *)
Lemma Tokens_lower s raw : Tokens s raw -> Tokens (lower s) (map lower raw).
Proof.
  induction 1 as [|c s toks Hsp _ IH|c s toks Hw Hsp _ IH|w s toks Hne Hall Hend _ IH];
    simpl.
  - constructor.
  - apply Tokens_space; [by rewrite lower_keeps_space | done].
  - apply Tokens_symbol;
      [by rewrite lower_keeps_word | by rewrite lower_keeps_space | done].
  - rewrite lower_app. apply Tokens_word; [by destruct w| | |done].
    + by rewrite forallb_word_lower.
    + by apply lower_head_word.
Qed.

Lemma Tokens_shape s raw : Tokens s raw -> Forall (fun t => token_shape t = true) raw.
Proof.
  induction 1 as [|c s toks Hsp _ IH|c s toks Hw Hsp _ IH|w s toks Hne Hall Hend _ IH].
  - constructor.
  - done.
  - constructor; [|done]. unfold token_shape, Char.is_symbol. simpl.
    by rewrite Hw, Hsp.
  - constructor; [|done]. unfold token_shape, word_only.
    destruct w; [done|]. by rewrite Hall.
Qed.

Lemma Tokens_content s raw : Tokens s raw -> concat raw = without_spaces s.
Proof.
  induction 1 as [|c s toks Hsp _ IH|c s toks Hw Hsp _ IH|w s toks Hne Hall Hend _ IH];
    simpl.
  - done.
  - by rewrite Hsp.
  - by rewrite Hsp, IH.
  - unfold without_spaces in *. rewrite List.filter_app, IH. f_equal.
    clear -Hall. induction w as [|c w IHw]; simpl in *; [done|].
    apply andb_prop in Hall as [Hc Hall].
    destruct (Char.is_space c) eqn:Hsp.
    + apply space_not_word in Hsp. congruence.
    + simpl. f_equal. by apply IHw.
Qed.

Lemma Tokens_app s1 raw1 s2 raw2 :
  Tokens s1 raw1 -> Tokens s2 raw2 -> is_word_opt (head s2) = false ->
  Tokens (s1 ++ s2) (raw1 ++ raw2).
Proof.
  intros H1 H2 Hstart.
  induction H1 as [|c s toks Hsp _ IH|c s toks Hw Hsp _ IH|w s toks Hne Hall Hend _ IH];
    simpl.
  - done.
  - by apply Tokens_space.
  - by apply Tokens_symbol.
  - rewrite <- app_assoc. apply Tokens_word; [done|done| |done].
    by destruct s.
Qed.

Lemma tokenize_sql_raw (sql : string) :
  tokenize_sql (Some sql)
  = map string_of_list_ascii (map lower (findall token_re (list_ascii_of_string sql))).
Proof. unfold tokenize_sql. by rewrite map_map. Qed.

Lemma token_shape_lower t : token_shape (lower t) = token_shape t.
Proof.
  unfold token_shape, word_only. destruct t as [|c [|c' t]]; simpl; [done| |].
  - unfold Char.is_symbol. by rewrite lower_keeps_word, lower_keeps_space.
  - change (map Char.lower t) with (lower t).
    by rewrite !lower_keeps_word, forallb_word_lower.
Qed.

(** X1. For a text of characters with code points 0 to 255, every
    token is non-empty and is either a run of word characters or a single
    character that is neither a word character nor whitespace; and every
    token is already lower-case. *)
Theorem tokenize_sql_token_invariant (sql : option string) :
  Forall (fun tok =>
            token_shape (list_ascii_of_string tok) = true /\ lower_str tok = tok)
         (tokenize_sql sql).
Proof.
  destruct sql as [sql|]; [|constructor].
  rewrite tokenize_sql_raw.
  pose proof (Tokens_shape _ _ (raw_tokens_spec (list_ascii_of_string sql))) as Hshape.
  induction Hshape as [|t raw Ht _ IH]; [constructor|].
  simpl. constructor; [|done]. unfold lower_str.
  rewrite list_ascii_of_string_of_list_ascii, lower_idem, token_shape_lower. done.
Qed.

(** X2. For a text of characters with code points 0 to 255, the
    tokens, joined, are the lower-cased text with its whitespace removed:
    tokenizing drops whitespace and nothing else. *)
Theorem tokenize_sql_keeps_content (sql : string) :
  concat (map list_ascii_of_string (tokenize_sql (Some sql)))
  = lower (without_spaces (list_ascii_of_string sql)).
Proof.
  rewrite tokenize_sql_raw, map_map.
  rewrite <- (Tokens_content _ _ (raw_tokens_spec (list_ascii_of_string sql))).
  induction (findall token_re (list_ascii_of_string sql)) as [|t raw IH]; [done|].
  simpl. by rewrite list_ascii_of_string_of_list_ascii, lower_app, IH.
Qed.

(** X3. Two texts of characters with code points 0 to 255 whose
    lower-cased forms are equal have the same tokens. *)
Theorem tokenize_sql_ignores_case (sql1 sql2 : string) :
  lower_str sql1 = lower_str sql2 ->
  tokenize_sql (Some sql1) = tokenize_sql (Some sql2).
Proof.
  intros Heq. rewrite !tokenize_sql_raw. f_equal.
  assert (forall s, map lower (findall token_re s) = findall token_re (lower s)) as Hl.
  { intros s. apply (Tokens_functional (lower s)); [|apply raw_tokens_spec].
    apply Tokens_lower, raw_tokens_spec. }
  rewrite !Hl. f_equal. unfold lower_str in Heq.
  apply (f_equal list_ascii_of_string) in Heq.
  by rewrite !list_ascii_of_string_of_list_ascii in Heq.
Qed.

Lemma tokenize_sql_ignores_case_witness :
  lower_str "Select A" = lower_str "sELECT a" /\
  tokenize_sql (Some "Select A"%string) = tokenize_sql (Some "sELECT a"%string).
Proof.
  assert (lower_str "Select A" = lower_str "sELECT a") as Heq by reflexivity.
  split; [exact Heq|]. exact (tokenize_sql_ignores_case _ _ Heq).
Defined.

(** X4. Where the second text does not start with a word character,
    the tokens of a concatenation are the tokens of the first text
    followed by those of the second. *)
Theorem tokenize_sql_app (sql1 sql2 : string) :
  is_word_opt (head (list_ascii_of_string sql2)) = false ->
  tokenize_sql (Some (sql1 ++ sql2)%string)
  = tokenize_sql (Some sql1) ++ tokenize_sql (Some sql2).
Proof.
  intros Hstart. rewrite !tokenize_sql_raw, list_ascii_of_string_app.
  rewrite <- !map_app. do 2 f_equal.
  apply (Tokens_functional (list_ascii_of_string sql1 ++ list_ascii_of_string sql2));
    [apply raw_tokens_spec|].
  apply Tokens_app; [apply raw_tokens_spec | apply raw_tokens_spec | done].
Qed.

Lemma tokenize_sql_app_witness :
  is_word_opt (head (list_ascii_of_string " WHERE a>1")) = false /\
  tokenize_sql (Some ("SELECT a" ++ " WHERE a>1")%string)
  = tokenize_sql (Some "SELECT a"%string) ++ tokenize_sql (Some " WHERE a>1"%string).
Proof.
  assert (is_word_opt (head (list_ascii_of_string " WHERE a>1")) = false) as Hstart
    by reflexivity.
  split; [exact Hstart|]. exact (tokenize_sql_app _ _ Hstart).
Defined.

(** ** compare_components *)

Section MatcherMore.
Context `{Countable K}.
Implicit Types (ref gen : list K).

Lemma presence_map_lookup (S : gset K) ref t :
  presence_map S ref !! t
  = if decide (t ∈ ref) then Some (bool_decide (t ∈ S)) else None.
Proof.
  unfold presence_map. rewrite presence_lookup.
  destruct (decide (t ∈ ref)); [done | apply lookup_empty].
Qed.

Lemma matched_count_mono (S S' : gset K) ref :
  (forall t, t ∈ ref -> t ∈ S -> t ∈ S') ->
  (matched_count S ref <= matched_count S' ref)%Z.
Proof.
  intros Hsub. unfold matched_count. apply Nat2Z.inj_le.
  induction ref as [|t ref IH]; [done|].
  rewrite !filter_cons.
  assert (length (filter (fun t => t ∈ S) ref) <= length (filter (fun t => t ∈ S') ref))
    as IH' by (apply IH; intros; apply Hsub; [by right | done]).
  destruct (decide (t ∈ S)) as [Ht|Ht].
  - rewrite decide_True by (apply Hsub; [by left | done]). simpl. lia.
  - destruct (decide (t ∈ S')); simpl; lia.
Qed.

Lemma percent_mono (m m' n : Z) :
  (m <= m')%Z -> (0 < n)%Z ->
  (inject_Z m / inject_Z n * 100 <= inject_Z m' / inject_Z n * 100)%Q.
Proof.
  intros Hm Hn. destruct n as [|p|p]; try lia.
  rewrite <- !Qmake_Qdiv. unfold Qle, Qmult; simpl. nia.
Qed.

Lemma percent_zero (m n : Z) :
  (0 < n)%Z -> (inject_Z m / inject_Z n * 100 == 0)%Q <-> m = 0%Z.
Proof.
  intros Hn. destruct n as [|p|p]; try lia.
  rewrite <- Qmake_Qdiv. unfold Qeq, Qmult; simpl. split; nia.
Qed.

Lemma filter_length_zero (S : gset K) ref :
  length (filter (fun t => t ∈ S) ref) = 0 <-> forall t, t ∈ ref -> t ∉ S.
Proof.
  induction ref as [|t ref IH]; simpl.
  - split; [intros _ t Ht; inversion Ht | done].
  - rewrite filter_cons. destruct (decide (t ∈ S)) as [Ht|Ht]; simpl.
    + split; [done|]. intros Hnone. destruct (Hnone t); [by left | done].
    + rewrite IH. split.
      * intros Hnone u Hu. apply elem_of_cons in Hu as [->|Hu]; auto.
      * intros Hnone u Hu. apply Hnone. by right.
Qed.

(** X5. The detail map has one entry per distinct reference token,
    whose value tells whether the token occurs in the generated
    sequence; tokens outside the reference sequence have no entry. *)
Theorem compare_components_details ref gen :
  exists p details,
    compare_components ref gen = Ok (p, details) /\
    dom details = list_to_set ref /\
    forall t, details !! t
              = if decide (t ∈ ref) then Some (bool_decide (t ∈ gen)) else None.
Proof.
  rewrite compare_components_eq. do 2 eexists. split; [reflexivity|].
  assert (forall t, presence_map (list_to_set gen) ref !! t
                    = if decide (t ∈ ref) then Some (bool_decide (t ∈ gen)) else None)
    as Hlook.
  { intros t. rewrite presence_map_lookup. destruct (decide (t ∈ ref)); [|done].
    f_equal. apply bool_decide_ext. apply elem_of_list_to_set. }
  split; [|done].
  apply set_eq. intros t. rewrite elem_of_dom, elem_of_list_to_set, Hlook.
  destruct (decide (t ∈ ref)); split; intros Ht; try done.
Qed.

(** X6. Generating more tokens never lowers the result: when every
    token of [gen] also occurs in [gen'], neither the percentage nor the
    exact flag decreases. *)
Theorem match_tokens_monotone ref gen gen' :
  (forall t, t ∈ gen -> t ∈ gen') ->
  exists p d e p' d' e',
    match_tokens ref gen = Ok (p, d, e) /\
    match_tokens ref gen' = Ok (p', d', e') /\
    (p <= p')%Q /\ (e <= e')%Z.
Proof.
  intros Hsub. rewrite !match_tokens_eq. do 6 eexists.
  split; [reflexivity|]. split; [reflexivity|].
  assert (forall t, t ∈ (list_to_set gen : gset K) -> t ∈ (list_to_set gen' : gset K))
    as Hsub'.
  { intros t. rewrite !elem_of_list_to_set. apply Hsub. }
  split.
  - unfold match_percentage.
    destruct (0 <? Z.of_nat (length ref))%Z eqn:Hpos; [|apply Qle_refl].
    apply Z.ltb_lt in Hpos. apply percent_mono; [|done].
    apply matched_count_mono. auto.
  - destruct (all_values (presence_map (list_to_set gen) ref)) eqn:Hall.
    + pose proof (proj1 (presence_all _ _) Hall) as Hall'.
      assert (all_values (presence_map (list_to_set gen') ref) = true) as ->;
        [|simpl; lia].
      apply (proj2 (presence_all _ _)). auto.
    + destruct (all_values (presence_map (list_to_set gen') ref)); lia.
Qed.

(** X7. The result does not depend on the order of the reference
    tokens. *)
Theorem match_tokens_reference_order ref ref' gen :
  ref ≡ₚ ref' -> match_tokens ref gen = match_tokens ref' gen.
Proof.
  intros Hperm. rewrite !match_tokens_eq.
  assert (presence_map (list_to_set gen) ref = presence_map (list_to_set gen) ref')
    as Hmap.
  { apply map_eq. intros t. rewrite !presence_map_lookup.
    destruct (decide (t ∈ ref)) as [Ht|Ht]; rewrite Hperm in Ht;
      destruct (decide (t ∈ ref')); done. }
  rewrite Hmap. do 3 f_equal.
  unfold match_percentage, matched_count.
  assert (length ref = length ref') as -> by (by apply Permutation_length).
  assert (length (filter (fun t => t ∈ (list_to_set gen : gset K)) ref)
          = length (filter (fun t => t ∈ (list_to_set gen : gset K)) ref')) as ->; [|done].
  apply Permutation_length. by apply filter_Permutation.
Qed.

(** X8. For a non-empty reference sequence the percentage is 0 exactly
    when no reference token occurs in the generated sequence, and the
    exact flag is then 0. *)
Theorem match_tokens_zero ref gen :
  ref <> [] ->
  exists p d e,
    match_tokens ref gen = Ok (p, d, e) /\
    ((p == 0)%Q <-> forall t, t ∈ ref -> t ∉ gen) /\
    ((p == 0)%Q -> e = 0%Z).
Proof.
  intros Hne. rewrite match_tokens_eq. do 3 eexists. split; [reflexivity|].
  assert (0 < Z.of_nat (length ref))%Z as Hpos by (destruct ref; [done | simpl; lia]).
  assert ((match_percentage (list_to_set gen) ref == 0)%Q
          <-> forall t, t ∈ ref -> t ∉ gen) as Hzero.
  { unfold match_percentage. rewrite (proj2 (Z.ltb_lt _ _) Hpos), (percent_zero _ _ Hpos).
    unfold matched_count.
    etransitivity; [|etransitivity;
                      [apply (filter_length_zero (list_to_set gen) ref)|]]; [lia|].
    split; intros Hnone t Ht; specialize (Hnone t Ht);
      by rewrite elem_of_list_to_set in *. }
  split; [done|]. intros Hp. pose proof (proj1 Hzero Hp) as Hnone.
  destruct (all_values (presence_map (list_to_set gen) ref)) eqn:Hall; [|done].
  pose proof (proj1 (presence_all _ _) Hall) as Hall'.
  destruct ref as [|t ref]; [done|].
  destruct (Hnone t); [by left|].
  apply (proj1 (elem_of_list_to_set (C:=gset K) t gen)), Hall'. by left.
Qed.

End MatcherMore.

Lemma match_tokens_monotone_witness :
  let ref := ["select"; "a"; "from"; "t"]%string in
  let gen := ["select"; "a"]%string in
  let gen' := ["from"; "select"; "x"; "a"]%string in
  (forall t, t ∈ gen -> t ∈ gen') /\
  exists p d e p' d' e',
    match_tokens ref gen = Ok (p, d, e) /\
    match_tokens ref gen' = Ok (p', d', e') /\
    (p <= p')%Q /\ (e <= e')%Z.
Proof.
  intros ref gen gen'.
  assert (forall t, t ∈ gen -> t ∈ gen') as Hsub.
  { apply Forall_forall. repeat constructor. }
  split; [exact Hsub|]. exact (match_tokens_monotone ref gen gen' Hsub).
Defined.

Lemma match_tokens_reference_order_witness :
  ["a"; "b"; "a"]%string ≡ₚ ["a"; "a"; "b"]%string /\
  match_tokens ["a"; "b"; "a"]%string ["a"]%string
  = match_tokens ["a"; "a"; "b"]%string ["a"]%string.
Proof.
  assert (["a"; "b"; "a"]%string ≡ₚ ["a"; "a"; "b"]%string) as Hperm.
  { apply perm_skip, perm_swap. }
  split; [exact Hperm|]. exact (match_tokens_reference_order _ _ _ Hperm).
Defined.

Lemma match_tokens_zero_witness :
  ["select"; "a"]%string <> [] /\
  exists p d e,
    match_tokens ["select"; "a"]%string (tokenize_sql (Some ""%string)) = Ok (p, d, e) /\
    ((p == 0)%Q <->
     forall t, t ∈ ["select"; "a"]%string -> t ∉ tokenize_sql (Some ""%string)) /\
    ((p == 0)%Q -> e = 0%Z).
Proof.
  assert (["select"; "a"]%string <> []) as Hne by discriminate.
  split; [exact Hne|]. exact (match_tokens_zero _ _ Hne).
Defined.


(** ** evaluate_sql *)

Lemma traverse_ok_all {A B} (f : A -> result B) l ys :
  traverse f l = Ok ys -> Forall (fun x => exists y, f x = Ok y) l.
Proof.
  revert ys. induction l as [|x l IH]; intros ys; simpl; [constructor|].
  destruct (f x) as [y|e] eqn:Hfx; simpl; [|done].
  destruct (traverse f l) as [ys'|e] eqn:Htr; simpl; [|done].
  intros _. constructor; [eauto | by eapply IH].
Qed.

Lemma traverse_raise_origin {A B} (f : A -> result B) l e :
  traverse f l = Raise e -> exists x, x ∈ l /\ f x = Raise e.
Proof.
  induction l as [|x l IH]; simpl; [done|].
  destruct (f x) as [y|e'] eqn:Hfx; simpl.
  - destruct (traverse f l) as [ys'|e'] eqn:Htr; simpl; [done|].
    intros [= ->]. destruct IH as (x' & Hin & Hx'); [done|].
    exists x'. split; [by right | done].
  - intros [= ->]. exists x. split; [by left | done].
Qed.

Lemma traverse_first_raise {A B} (f : A -> result B) pre x post e :
  Forall (fun x => exists y, f x = Ok y) pre -> f x = Raise e ->
  traverse f (pre ++ x :: post) = Raise e.
Proof.
  intros Hpre Hx. induction Hpre as [|x0 pre [y Hy] _ IH]; simpl.
  - by rewrite Hx.
  - by rewrite Hy, IH.
Qed.

Lemma traverse_map {A B C} (f : B -> result C) (g : A -> B) l :
  traverse f (map g l) = traverse (fun x => f (g x)) l.
Proof. induction l as [|x l IH]; simpl; [done|]. by rewrite IH. Qed.

(** X9. On a frame whose [generated_query] cells are strings or
    missing, [evaluate_sql] either returns three lists with one entry per
    row, and then every row's [query_toks] decodes, or raises the
    decoding error of one of the rows. *)
Theorem evaluate_sql_outcome literal_eval (data : list row) :
  match evaluate_sql literal_eval data with
  | Ok (ps, ds, es) =>
      length ps = length data /\ length ds = length data /\
      length es = length data /\
      Forall (fun r => exists t,
                decode_query_toks literal_eval (query_toks r) = Ok t) data
  | Raise e =>
      exists r, r ∈ data /\ decode_query_toks literal_eval (query_toks r) = Raise e
  end.
Proof.
  unfold evaluate_sql.
  destruct (traverse (fun r => decode_query_toks literal_eval (query_toks r)) data)
    as [ref|e] eqn:Htr; simpl.
  - rewrite evaluate_rows_eq. simpl.
    pose proof (traverse_ok_length _ _ _ Htr) as Hlen.
    rewrite !length_map, token_rows_length by done.
    repeat split; try done. by eapply traverse_ok_all.
  - by apply traverse_raise_origin.
Qed.

(** X10. The error raised is that of the first row, in order, whose
    [query_toks] does not decode. *)
Theorem evaluate_sql_first_error literal_eval (pre post : list row) (r : row) e :
  Forall (fun r => exists t,
            decode_query_toks literal_eval (query_toks r) = Ok t) pre ->
  decode_query_toks literal_eval (query_toks r) = Raise e ->
  evaluate_sql literal_eval (pre ++ r :: post) = Raise e.
Proof.
  intros Hpre Hr. unfold evaluate_sql.
  by rewrite (traverse_first_raise
                (fun r => decode_query_toks literal_eval (query_toks r)) pre r post e).
Qed.

Lemma evaluate_sql_first_error_witness :
  let pre := [Row (Some "select a"%string) (PyStr "['SELECT', 'a']")] in
  let post := [Row None PyAtom] in
  let r := Row (Some "x"%string) (PyStr "[") in
  Forall (fun r => exists t,
            decode_query_toks sample_literal_eval (query_toks r) = Ok t) pre /\
  decode_query_toks sample_literal_eval (query_toks r) = Raise SyntaxError /\
  evaluate_sql sample_literal_eval (pre ++ r :: post) = Raise SyntaxError.
Proof.
  intros pre post r.
  assert (Forall (fun r => exists t,
            decode_query_toks sample_literal_eval (query_toks r) = Ok t) pre) as Hpre.
  { repeat constructor. eexists. vm_compute. reflexivity. }
  assert (decode_query_toks sample_literal_eval (query_toks r) = Raise SyntaxError)
    as Hr by reflexivity.
  split; [exact Hpre|]. split; [exact Hr|].
  exact (evaluate_sql_first_error sample_literal_eval pre post r SyntaxError Hpre Hr).
Defined.

Lemma token_rows_zip data ref :
  token_rows data (map (fun r => tokenize_sql (generated_query r)) data) ref
  = zip_with (fun r t => TokenRow r (tokenize_sql (generated_query r)) t) data ref.
Proof.
  unfold token_rows. revert ref. induction data as [|r data IH]; intros ref; [done|].
  destruct ref as [|t ref]; [done|]. simpl. by rewrite IH.
Qed.

Lemma evaluate_rows_outcomes acc rows :
  evaluate_rows acc rows
  = Ok (acc.1.1 ++ map (fun o : Q * gmap token bool * Z => o.1.1) (map row_outcome rows),
        acc.1.2 ++ map (fun o : Q * gmap token bool * Z => o.1.2) (map row_outcome rows),
        acc.2 ++ map (fun o : Q * gmap token bool * Z => o.2) (map row_outcome rows)).
Proof. rewrite evaluate_rows_eq. by rewrite !map_map. Qed.

(** X11. For generated queries made of characters with code points 0
    to 255, their letter case does not matter: two datasets with the same
    [query_toks] cells whose generated queries are missing in the same
    rows and otherwise have equal lower-cased forms evaluate alike, to
    the same three lists or to the same error. *)
Theorem evaluate_sql_ignores_generated_case literal_eval (data1 data2 : list row) :
  Forall2 (fun r1 r2 =>
             query_toks r1 = query_toks r2 /\
             option_map lower_str (generated_query r1)
             = option_map lower_str (generated_query r2)) data1 data2 ->
  evaluate_sql literal_eval data1 = evaluate_sql literal_eval data2.
Proof.
  intros Hrel. unfold evaluate_sql.
  assert (traverse (fun r => decode_query_toks literal_eval (query_toks r)) data1
          = traverse (fun r => decode_query_toks literal_eval (query_toks r)) data2)
    as Htr.
  { induction Hrel as [|r1 r2 d1 d2 [Hq _] _ IH]; simpl; [done|].
    by rewrite Hq, IH. }
  rewrite Htr.
  destruct (traverse _ data2) as [ref|e]; simpl; [|done].
  rewrite !evaluate_rows_outcomes, !token_rows_zip.
  assert (map row_outcome
            (zip_with (fun r t => TokenRow r (tokenize_sql (generated_query r)) t)
               data1 ref)
          = map row_outcome
            (zip_with (fun r t => TokenRow r (tokenize_sql (generated_query r)) t)
               data2 ref)) as ->; [|done].
  clear Htr. revert ref.
  induction Hrel as [|r1 r2 d1 d2 [_ Hg] _ IH]; intros ref; [done|].
  destruct ref as [|t ref]; [done|]. simpl. rewrite IH. f_equal.
  unfold row_outcome. simpl.
  destruct (generated_query r1) as [g1|], (generated_query r2) as [g2|];
    simpl in Hg; try done.
  injection Hg as Hg. by rewrite (tokenize_sql_ignores_case g1 g2 Hg).
Qed.

Lemma evaluate_sql_ignores_generated_case_witness :
  let data1 := [Row (Some "SELECT a"%string) (PyStr "['SELECT', 'a']");
                Row (Some "Select B"%string) (PyIter [PyStr "select"; PyStr "a"]);
                Row None (PyStr "[]")] in
  let data2 := [Row (Some "select A"%string) (PyStr "['SELECT', 'a']");
                Row (Some "sELECT b"%string) (PyIter [PyStr "select"; PyStr "a"]);
                Row None (PyStr "[]")] in
  Forall2 (fun r1 r2 =>
             query_toks r1 = query_toks r2 /\
             option_map lower_str (generated_query r1)
             = option_map lower_str (generated_query r2)) data1 data2 /\
  evaluate_sql sample_literal_eval data1 = evaluate_sql sample_literal_eval data2.
Proof.
  intros data1 data2.
  assert (Forall2 (fun r1 r2 =>
             query_toks r1 = query_toks r2 /\
             option_map lower_str (generated_query r1)
             = option_map lower_str (generated_query r2)) data1 data2) as Hrel.
  { repeat constructor. }
  split; [exact Hrel|].
  exact (evaluate_sql_ignores_generated_case sample_literal_eval data1 data2 Hrel).
Defined.

(** Both of those datasets are scored, row by row: a full match, a half
    match, and the fallback of a missing generated query. *)
Example evaluate_sql_case_scenario :
  match evaluate_sql sample_literal_eval
          [Row (Some "SELECT a"%string) (PyStr "['SELECT', 'a']");
           Row (Some "Select B"%string) (PyIter [PyStr "select"; PyStr "a"]);
           Row None (PyStr "[]")] with
  | Ok (ps, _, es) => Forall2 Qeq ps [100; 50; 0]%Q /\ es = [1; 0; 0]%Z
  | Raise _ => False
  end.
Proof.
  unfold evaluate_sql. cbn -[evaluate_rows]. rewrite evaluate_rows_eq.
  vm_compute. split; [repeat constructor | reflexivity].
Qed.

Lemma traverse_lower_strings (l : list string) :
  traverse token_lower (map PyStr l) = Ok (map (fun s => TStr (lower_str s)) l).
Proof. induction l as [|s l IH]; simpl; [done|]. by rewrite IH. Qed.

(** X12. A cell that already holds a list of strings, and a string cell
    that [ast.literal_eval] turns into that list, decode to the same
    reference tokens: the strings of the list, lower-cased, in order. *)
Theorem decode_query_toks_list literal_eval (s : string) (l : list string) :
  literal_eval s = Ok (PyIter (map PyStr l)) ->
  decode_query_toks literal_eval (PyStr s)
  = Ok (map (fun s => TStr (lower_str s)) l) /\
  decode_query_toks literal_eval (PyIter (map PyStr l))
  = Ok (map (fun s => TStr (lower_str s)) l).
Proof.
  intros Hs. unfold decode_query_toks. rewrite Hs. simpl.
  by rewrite traverse_lower_strings.
Qed.

Lemma decode_query_toks_list_witness :
  sample_literal_eval "['SELECT', 'a']" = Ok (PyIter (map PyStr ["SELECT"; "a"]%string)) /\
  decode_query_toks sample_literal_eval (PyStr "['SELECT', 'a']")
  = Ok (map (fun s => TStr (lower_str s)) ["SELECT"; "a"]%string) /\
  decode_query_toks sample_literal_eval (PyIter (map PyStr ["SELECT"; "a"]%string))
  = Ok (map (fun s => TStr (lower_str s)) ["SELECT"; "a"]%string).
Proof.
  assert (sample_literal_eval "['SELECT', 'a']"
          = Ok (PyIter (map PyStr ["SELECT"; "a"]%string))) as Hs by reflexivity.
  split; [exact Hs|].
  exact (decode_query_toks_list sample_literal_eval _ _ Hs).
Defined.

(** X13. A string cell whose literal is itself a string, not a list,
    raises nothing: it is read character by character, each character
    becoming one lower-cased reference token. *)
Theorem decode_query_toks_quoted_string literal_eval (s w : string) :
  literal_eval s = Ok (PyStr w) ->
  decode_query_toks literal_eval (PyStr s)
  = Ok (map (fun c => TStr (lower_str (String c EmptyString)))
          (list_ascii_of_string w)).
Proof.
  intros Hs. unfold decode_query_toks. rewrite Hs. simpl.
  induction (list_ascii_of_string w) as [|c cs IH]; simpl; [done|].
  by rewrite IH.
Qed.

Lemma decode_query_toks_quoted_string_witness :
  sample_quoted_eval "'Ab'" = Ok (PyStr "Ab") /\
  decode_query_toks sample_quoted_eval (PyStr "'Ab'")
  = Ok (map (fun c => TStr (lower_str (String c EmptyString)))
          (list_ascii_of_string "Ab")).
Proof.
  assert (sample_quoted_eval "'Ab'" = Ok (PyStr "Ab")) as Hs by reflexivity.
  split; [exact Hs|].
  exact (decode_query_toks_quoted_string sample_quoted_eval _ _ Hs).
Defined.

(** ** categorize_query *)

Lemma after_line_feeds s :
  after_line s = [] \/ line_feeds s = S (line_feeds (after_line s)).
Proof.
  unfold line_feeds. induction s as [|c s IH]; simpl; [by left|].
  destruct (Char.is_dot c); simpl; [done | by right].
Qed.

Lemma subquery_lines n : forall prev s,
  length s <= n -> length (scan subquery_re 0 prev s) <= S (line_feeds s).
Proof.
  induction n as [|n IH]; intros prev s Hlen.
  - destruct s; [|simpl in Hlen; lia]. rewrite subquery_scan_nil. simpl. lia.
  - rewrite (subquery_count_lines _ prev s (Nat.le_refl _)).
    assert ((if line_has (matches subquery_re) prev s then 1 else 0) <= 1) as Hone
      by (destruct (line_has _ prev s); lia).
    destruct (after_line_feeds s) as [Hnil|Hfeeds].
    + rewrite Hnil, subquery_scan_nil. simpl length. lia.
    + pose proof (after_line_length s) as Hal.
      specialize (IH (Some "010"%char) (after_line s) ltac:(lia)). lia.
Qed.

(** X14. The nested-select pattern is counted at most once per line of
    the query, however many subqueries a line holds: the count is at
    most one more than the number of line feeds. *)
Theorem subquery_count_per_line (q : list ascii) :
  (count subquery_re q <= Z.of_nat (line_feeds q) + 1)%Z.
Proof.
  unfold count, findall.
  pose proof (subquery_lines (length q) None q (Nat.le_refl _)). lia.
Qed.

Lemma split_from_lower cur s :
  split_from (lower cur) (lower s) = map lower (split_from cur s).
Proof.
  revert cur. induction s as [|c s IH]; intros cur; simpl.
  - destruct cur as [|a cur]; simpl; [done|].
    unfold lower. by rewrite map_app, map_rev.
  - rewrite lower_keeps_space. destruct (Char.is_space c).
    + destruct cur as [|a cur]; simpl; [apply (IH [])|].
      f_equal; [unfold lower; by rewrite map_app, map_rev | apply (IH [])].
    + apply (IH (c :: cur)).
Qed.

Lemma count_nonneg r s : (0 <= count r s)%Z.
Proof. unfold count. lia. Qed.

(** X15. The score is never negative and is at least the number of
    whitespace-separated words divided by 50, so a query of 400 words or
    more is Hard whatever it contains, and an Easy query has fewer than
    200 words. *)
Theorem complexity_score_word_bound (query : string) :
  let words := Z.of_nat (length (split (list_ascii_of_string query))) in
  (0 <= complexity_score query)%Z /\
  (words / 50 <= complexity_score query)%Z /\
  ((400 <= words)%Z -> categorize_query query = Hard) /\
  (categorize_query query = Easy -> (words < 200)%Z).
Proof.
  intros words.
  assert (words / 50 <= complexity_score query)%Z as Hbound.
  { unfold complexity_score, words.
    pose proof (split_from_lower [] (list_ascii_of_string query)) as Hl.
    change (split_from (lower []) (lower (list_ascii_of_string query)))
      with (split (lower (list_ascii_of_string query))) in Hl.
    rewrite Hl, length_map. fold (split (list_ascii_of_string query)).
    set (q := lower (list_ascii_of_string query)).
    pose proof (count_nonneg join_re q). pose proof (count_nonneg where_re q).
    pose proof (count_nonneg group_by_re q). pose proof (count_nonneg order_by_re q).
    pose proof (count_nonneg having_re q). pose proof (count_nonneg union_re q).
    pose proof (count_nonneg intersect_re q). pose proof (count_nonneg except_re q).
    pose proof (count_nonneg distinct_re q). pose proof (count_nonneg aggregate_re q).
    pose proof (count_nonneg subquery_re q). pose proof (count_nonneg advanced_re q).
    pose proof (count_nonneg logical_re q). lia. }
  assert (0 <= words / 50)%Z as Hpos by (apply Z.div_pos; unfold words; lia).
  split; [lia|]. split; [done|]. unfold categorize_query. split.
  - intros Hlong.
    assert (8 <= words / 50)%Z by (apply (Z.div_le_lower_bound words 50 8); lia).
    destruct (Z.leb_spec (complexity_score query) 3); [lia|].
    destruct (Z.leb_spec (complexity_score query) 7); [lia|done].
  - destruct (Z.leb_spec (complexity_score query) 3) as [Hle|]; [|by destruct (_ <=? _)%Z].
    intros _. destruct (Z.lt_ge_cases words 200) as [|Hge]; [done|].
    assert (4 <= words / 50)%Z by (apply (Z.div_le_lower_bound words 50 4); lia). lia.
Qed.

Lemma complexity_score_word_bound_witness :
  let query := "select a from t where b = 1"%string in
  let words := Z.of_nat (length (split (list_ascii_of_string query))) in
  categorize_query query = Easy /\ (words < 200)%Z.
Proof.
  intros query words.
  assert (categorize_query query = Easy) as Heasy by (vm_compute; reflexivity).
  split; [exact Heasy|].
  exact (proj2 (proj2 (proj2 (complexity_score_word_bound query))) Heasy).
Defined.

Lemma count_positions_app (r : regex) t prev s :
  is_word_opt (head t) = false ->
  (forall p, matches r p [] = false) ->
  count_positions (matches r) prev s
  + count_positions (matches r) (last_char prev s) t
  <= count_positions (matches r) prev (s ++ t).
Proof.
  intros Ht Hend. revert prev. induction s as [|c s IH]; intros prev.
  - simpl. rewrite Hend, last_char_nil. simpl. lia.
  - simpl. rewrite last_char_cons. specialize (IH (Some c)).
    destruct (matches r prev (c :: s)) eqn:Hm.
    + apply (matches_extend t Ht) in Hm. simpl in Hm. rewrite Hm. lia.
    + destruct (matches r prev (c :: s ++ t)); lia.
Qed.

Lemma join_after_space prev tail :
  is_word_opt (head tail) = false ->
  1 <= count_positions (matches join_re) prev (list_ascii_of_string " join" ++ tail).
Proof.
  intros Htail. simpl.
  assert (matches join_re (Some " "%char)
            ("j"%char :: "o"%char :: "i"%char :: "n"%char :: tail) = true) as ->; [|lia].
  unfold matches, join_re. rewrite match_here_keyword. unfold match_words.
  simpl. unfold at_boundary. simpl. rewrite Htail. done.
Qed.

(** X16. Appending a JOIN clause that starts with a space, in any letter
    case, raises the score by at least 2. *)
Theorem complexity_score_join_clause (base extra : string) (tail : list ascii) :
  lower (list_ascii_of_string extra) = list_ascii_of_string " join" ++ tail ->
  is_word_opt (head tail) = false ->
  (complexity_score base + 2 <= complexity_score (base ++ extra))%Z.
Proof.
  intros Hextra Htail. unfold complexity_score.
  rewrite list_ascii_of_string_app, lower_app.
  set (q := lower (list_ascii_of_string base)) in *.
  set (t := lower (list_ascii_of_string extra)) in *.
  assert (is_word_opt (head t) = false) as Hstart by (by rewrite Hextra).
  assert (count join_re q + 1 <= count join_re (q ++ t))%Z as Hjoin.
  { unfold count, findall.
    assert (forall prev s rest,
              match_here join_re prev s = Some rest ->
              exists a, s = a ++ rest /\ a <> [] /\
                forall a1 a2, a = a1 ++ a2 -> a1 <> [] -> a2 <> [] ->
                  match_here join_re (last_char prev a1) (a2 ++ rest) = None)
      as Hno.
    { intros prev u rest. unfold join_re. rewrite match_here_keyword. intros Hm.
      destruct (match_words_no_overlap [list_ascii_of_string "join"] eq_refl _ _ _ Hm)
        as (a & -> & Hne & Hin).
      exists a. split; [done|]. split; [done|].
      intros a1 a2 Ha Ha1 Ha2. rewrite match_here_keyword. by apply Hin. }
    rewrite !scan_count_positions by done.
    assert (forall p, matches join_re p [] = false) as Hend.
    { intros p. unfold matches.
      destruct (match_here join_re p []) as [rest|] eqn:Hm; [|done].
      apply Hno in Hm as (a & Heq & Hne & _). by destruct a. }
    pose proof (count_positions_app join_re t None q Hstart Hend) as Happ.
    pose proof (join_after_space (last_char None q) tail Htail) as Hone.
    rewrite <- Hextra in Hone. lia. }
  pose proof (count_keyword_extend q t Hstart "where" eq_refl).
  pose proof (count_keyword_extend q t Hstart "group by" eq_refl).
  pose proof (count_keyword_extend q t Hstart "order by" eq_refl).
  pose proof (count_keyword_extend q t Hstart "having" eq_refl).
  pose proof (count_keyword_extend q t Hstart "union" eq_refl).
  pose proof (count_keyword_extend q t Hstart "intersect" eq_refl).
  pose proof (count_keyword_extend q t Hstart "except" eq_refl).
  pose proof (count_keyword_extend q t Hstart "distinct" eq_refl).
  pose proof (count_keywords_extend q t Hstart "avg"
    ["count"; "min"; "max"; "sum"; "variance"; "stddev"]%string eq_refl).
  pose proof (count_keywords_extend q t Hstart "case"
    ["cast"; "coalesce"; "decode"; "rank"; "dense_rank"; "row_number"; "ntile"]%string
    eq_refl).
  pose proof (count_keywords_extend q t Hstart "and" ["or"]%string eq_refl).
  pose proof (count_subquery_extend q t Hstart).
  pose proof (word_count_extend q t).
  unfold where_re, group_by_re, order_by_re, having_re, union_re,
    intersect_re, except_re, distinct_re, aggregate_re, advanced_re, logical_re.
  lia.
Qed.

Lemma complexity_score_join_clause_witness :
  let base := "SELECT a FROM t"%string in
  let extra := " JOIN u ON t.x = u.x"%string in
  let tail := list_ascii_of_string " u on t.x = u.x" in
  lower (list_ascii_of_string extra) = list_ascii_of_string " join" ++ tail /\
  is_word_opt (head tail) = false /\
  (complexity_score base + 2 <= complexity_score (base ++ extra))%Z.
Proof.
  intros base extra tail.
  assert (lower (list_ascii_of_string extra) = list_ascii_of_string " join" ++ tail)
    as Hextra by reflexivity.
  assert (is_word_opt (head tail) = false) as Htail by reflexivity.
  split; [exact Hextra|]. split; [exact Htail|].
  exact (complexity_score_join_clause base extra tail Hextra Htail).
Defined.

(** ** The figures of one category *)

Lemma py_sum_Q_bounds (xs : list Q) (acc : Q) :
  Forall (fun p => 0 <= p /\ p <= 100)%Q xs ->
  (acc <= foldl Qplus acc xs)%Q /\
  (foldl Qplus acc xs <= acc + 100 * inject_Z (Z.of_nat (length xs)))%Q.
Proof.
  intros Hall. revert acc. induction Hall as [|p xs [Hp0 Hp1] _ IH]; intros acc.
  - simpl. change (inject_Z (Z.of_nat 0)) with 0%Q. split; lra.
  - cbn [foldl length]. destruct (IH (acc + p)%Q) as [IH0 IH1].
    rewrite Nat2Z.inj_succ, <- Z.add_1_r, inject_Z_plus.
    change (inject_Z 1) with 1%Q. split; lra.
Qed.

Lemma py_sum_Z_shift (xs : list Z) (acc : Z) :
  foldl Z.add acc xs = (acc + foldl Z.add 0 xs)%Z.
Proof.
  revert acc. induction xs as [|x xs IH]; intros acc; simpl; [lia|].
  rewrite (IH (acc + x)%Z), (IH (0 + x)%Z). lia.
Qed.

Lemma py_sum_Q_shift (xs : list Q) (acc : Q) :
  (foldl Qplus acc xs == acc + foldl Qplus 0 xs)%Q.
Proof.
  revert acc. induction xs as [|x xs IH]; intros acc; simpl; [lra|].
  rewrite (IH (acc + x)%Q), (IH (0 + x)%Q). lra.
Qed.

(** Each row's exact flag, times 100, is at most its percentage when
    [ok] holds of the row; the sums inherit it. *)
Lemma sums_exact_le_partial (os : list (Q * gmap token bool * Z)) :
  Forall (fun o => (inject_Z o.2 * 100 <= o.1.1)%Q) os ->
  (inject_Z (py_sum_Z (map (fun o => o.2) os)) * 100
   <= py_sum_Q (map (fun o => o.1.1) os))%Q.
Proof.
  unfold py_sum_Z, py_sum_Q. induction 1 as [|o os Ho _ IH]; cbn [map foldl].
  - change (inject_Z 0) with 0%Q. lra.
  - rewrite py_sum_Z_shift, py_sum_Q_shift, !inject_Z_plus.
    change (inject_Z 0) with 0%Q. lra.
Qed.

Lemma row_outcome_range (r : token_row) :
  (0 <= (row_outcome r).1.1)%Q /\ ((row_outcome r).1.1 <= 100)%Q /\
  ((row_outcome r).2 = 0%Z \/ (row_outcome r).2 = 1%Z).
Proof.
  unfold row_outcome. destruct (generated_query (tr_row r)); simpl.
  - pose proof (match_percentage_bounds
                  (list_to_set (map TStr (generated_tokens r)) : gset token)
                  (reference_tokens r)) as [H0 H1].
    split; [done|]. split; [done|]. destruct (all_values _); auto.
  - split; [lra|]. split; [lra|]. auto.
Qed.

Lemma row_outcome_exact_le_partial (r : token_row) :
  (generated_query (tr_row r) <> None -> reference_tokens r <> []) ->
  (inject_Z (row_outcome r).2 * 100 <= (row_outcome r).1.1)%Q.
Proof.
  intros Hne. unfold row_outcome.
  destruct (generated_query (tr_row r)) as [g|]; simpl; [|unfold inject_Z; lra].
  specialize (Hne ltac:(done)).
  pose proof (match_percentage_bounds
                (list_to_set (map TStr (generated_tokens r)) : gset token)
                (reference_tokens r)) as [H0 H1].
  destruct (all_values _) eqn:Hall; simpl; [|unfold inject_Z; lra].
  pose proof (proj1 (presence_all _ _) Hall) as Hall'.
  pose proof (proj2 (match_percentage_full _ _ Hne) Hall') as Hfull.
  rewrite Hfull. unfold inject_Z. lra.
Qed.

Lemma py_sum_Z_bounds (es : list Z) :
  Forall (fun e => e = 0%Z \/ e = 1%Z) es ->
  (0 <= py_sum_Z es <= Z.of_nat (length es))%Z.
Proof.
  unfold py_sum_Z. induction 1 as [|e es He _ IH]; cbn [foldl length]; [lia|].
  rewrite py_sum_Z_shift. lia.
Qed.

Lemma div_range (x : Q) (n : Z) :
  (0 < n)%Z -> (0 <= x)%Q -> (x <= 100 * inject_Z n)%Q ->
  (0 <= x / inject_Z n)%Q /\ (x / inject_Z n <= 100)%Q.
Proof.
  intros Hn H0 H1.
  assert (0 < inject_Z n)%Q as HN by (rewrite Zlt_Qlt in Hn; exact Hn).
  split.
  - apply Qle_shift_div_l; [done | lra].
  - apply Qle_shift_div_r; [done | lra].
Qed.

Lemma traverse_ok_Forall2 {A B} (f : A -> result B) l ys :
  traverse f l = Ok ys -> Forall2 (fun x y => f x = Ok y) l ys.
Proof.
  revert ys. induction l as [|x l IH]; intros ys; simpl.
  - intros [= <-]. constructor.
  - destruct (f x) as [y|e] eqn:Hfx; simpl; [|done].
    destruct (traverse f l) as [ys'|e] eqn:Htr; simpl; [|done].
    intros [= <-]. constructor; [done | by apply IH].
Qed.

Section CategoryFacts.
Variable literal_eval : string -> result pyval.

(** The outcomes of the rows of [data], given the decoded column. *)
Lemma evaluate_sql_outcomes data ref :
  traverse (fun r => decode_query_toks literal_eval (query_toks r)) data = Ok ref ->
  let os := map row_outcome
              (zip_with (fun r t => TokenRow r (tokenize_sql (generated_query r)) t)
                 data ref) in
  evaluate_sql literal_eval data
  = Ok (map (fun o => o.1.1) os, map (fun o => o.1.2) os, map (fun o => o.2) os) /\
  length os = length data.
Proof.
  intros Htr os. unfold evaluate_sql. rewrite Htr. simpl.
  rewrite evaluate_rows_outcomes, token_rows_zip. split; [done|].
  unfold os. rewrite length_map, length_zip_with.
  pose proof (traverse_ok_length _ _ _ Htr). lia.
Qed.

Lemma category_results_ok data ref :
  traverse (fun r => decode_query_toks literal_eval (query_toks r)) data = Ok ref ->
  data <> [] ->
  let os := map row_outcome
              (zip_with (fun r t => TokenRow r (tokenize_sql (generated_query r)) t)
                 data ref) in
  let n := Z.of_nat (length data) in
  category_results literal_eval data
  = Ok ((inject_Z (py_sum_Z (map (fun o => o.2) os)) / inject_Z n * 100)%Q,
        (py_sum_Q (map (fun o => o.1.1) os) / inject_Z n)%Q).
Proof.
  intros Htr Hne os n.
  destruct (evaluate_sql_outcomes data ref Htr) as [Heval Hlen].
  fold os in Heval, Hlen. unfold category_results. rewrite Heval. simpl.
  rewrite !length_map, Hlen. fold n.
  assert ((n =? 0)%Z = false) as Hn.
  { unfold n. destruct data; [done|]. simpl. lia. }
  unfold truediv_Q, truediv. rewrite Hn. done.
Qed.

(** X17. The figures of one category, computed from the frame that was
    read for it, its [generated_query] cells being strings or missing.
    On a frame without rows (a file that holds only the header line) the
    averages raise ZeroDivisionError; on a frame with rows the
    computation raises the decoding error of a row, or returns an
    exact-match percentage and an average partial match that both lie
    between 0 and 100. *)
Theorem category_results_outcome (data : list row) :
  match category_results literal_eval data with
  | Ok (exact, partial) =>
      data <> [] /\
      (0 <= exact)%Q /\ (exact <= 100)%Q /\ (0 <= partial)%Q /\ (partial <= 100)%Q
  | Raise e =>
      (data = [] /\ e = ZeroDivisionError) \/
      exists r, r ∈ data /\ decode_query_toks literal_eval (query_toks r) = Raise e
  end.
Proof.
  destruct (traverse (fun r => decode_query_toks literal_eval (query_toks r)) data)
    as [ref|e] eqn:Htr.
  - destruct data as [|r0 data].
    + simpl in Htr. injection Htr as <-. left. done.
    + rewrite (category_results_ok _ ref Htr) by done.
      set (os := map row_outcome _).
      set (n := Z.of_nat (length (r0 :: data))).
      assert (0 < n)%Z as Hn by (unfold n; simpl; lia).
      assert (length os = length (r0 :: data)) as Hlen
        by apply (evaluate_sql_outcomes _ ref Htr).
      assert (Forall (fun o : Q * gmap token bool * Z =>
                        (0 <= o.1.1)%Q /\ (o.1.1 <= 100)%Q /\ (o.2 = 0%Z \/ o.2 = 1%Z)) os)
        as Hos.
      { unfold os. apply Forall_forall. intros o Ho.
        apply list_elem_of_fmap in Ho as (tr & -> & _).
        apply row_outcome_range. }
      split; [done|].
      assert (0 <= py_sum_Z (map (fun o => o.2) os) <= n)%Z as Hes.
      { unfold n. rewrite <- Hlen, <- (length_map (fun o => o.2) os).
        apply py_sum_Z_bounds. apply Forall_fmap.
        eapply Forall_impl; [exact Hos|]. simpl. tauto. }
      destruct (percent_bounds _ _ Hes Hn) as [He0 He1].
      split; [done|]. split; [done|].
      apply div_range; [done| |].
      * unfold py_sum_Q.
        apply (py_sum_Q_bounds (map (fun o => o.1.1) os) 0).
        apply Forall_fmap. eapply Forall_impl; [exact Hos|]. simpl. tauto.
      * unfold py_sum_Q, n. rewrite <- Hlen, <- (length_map (fun o => o.1.1) os).
        destruct (py_sum_Q_bounds (map (fun o => o.1.1) os) 0) as [_ Hle].
        { apply Forall_fmap. eapply Forall_impl; [exact Hos|]. simpl. tauto. }
        lra.
  - unfold category_results, evaluate_sql. rewrite Htr. simpl. right.
    by apply traverse_raise_origin.
Qed.

Lemma outcomes_exact_le_partial (rows : list row) (ref : list (list token)) :
  Forall2 (fun r t => decode_query_toks literal_eval (query_toks r) = Ok t) rows ref ->
  (forall r t, r ∈ rows -> generated_query r <> None ->
     decode_query_toks literal_eval (query_toks r) = Ok t -> t <> []) ->
  Forall (fun o : Q * gmap token bool * Z => (inject_Z o.2 * 100 <= o.1.1)%Q)
    (map row_outcome
       (zip_with (fun r t => TokenRow r (tokenize_sql (generated_query r)) t)
          rows ref)).
Proof.
  induction 1 as [|r t rows ref Hdec _ IH]; intros Hne; [constructor|].
  simpl. constructor.
  - apply row_outcome_exact_le_partial. simpl. intros Hgen.
    apply (Hne r t); [by left | done | done].
  - apply IH. intros r' t' Hin. apply Hne. by right.
Qed.

(** X18. The two sums of the report, before they are divided by the
    number of rows. When [evaluate_sql] returns and every row with a
    generated query has a non-empty reference list, a hundred times the
    sum of the exact flags is at most the sum of the partial match
    percentages: each row counted as exact adds a full 100 to the
    partial sum, and no row adds less than 0. *)
Theorem evaluate_sql_exact_sum_le_partial_sum (data : list row)
    (match_percentages : list Q) (match_details : list (gmap token bool))
    (exact_matches : list Z) :
  evaluate_sql literal_eval data
  = Ok (match_percentages, match_details, exact_matches) ->
  (forall r t, r ∈ data -> generated_query r <> None ->
     decode_query_toks literal_eval (query_toks r) = Ok t -> t <> []) ->
  (inject_Z (py_sum_Z exact_matches) * 100 <= py_sum_Q match_percentages)%Q.
Proof.
  intros Hres Hne.
  destruct (traverse (fun r => decode_query_toks literal_eval (query_toks r)) data)
    as [ref|e] eqn:Htr.
  2:{ unfold evaluate_sql in Hres. by rewrite Htr in Hres. }
  destruct (evaluate_sql_outcomes data ref Htr) as [Heval _].
  rewrite Heval in Hres. injection Hres as <- _ <-.
  apply sums_exact_le_partial.
  exact (outcomes_exact_le_partial data ref (traverse_ok_Forall2 _ _ _ Htr) Hne).
Qed.

End CategoryFacts.

Lemma evaluate_sql_exact_sum_le_partial_sum_witness :
  let data := [Row (Some "select a"%string) (PyIter [PyStr "SELECT"; PyStr "a"]);
               Row (Some "select b"%string) (PyStr "['SELECT', 'a']");
               Row None (PyIter [])] in
  exists ps ds es,
    evaluate_sql sample_literal_eval data = Ok (ps, ds, es) /\
    (forall r t, r ∈ data -> generated_query r <> None ->
       decode_query_toks sample_literal_eval (query_toks r) = Ok t -> t <> []) /\
    (inject_Z (py_sum_Z es) * 100 <= py_sum_Q ps)%Q.
Proof.
  intros data.
  destruct (evaluate_sql sample_literal_eval data) as [[[ps ds] es]|e] eqn:Hres;
    [|vm_compute in Hres; discriminate].
  assert (forall r t, r ∈ data -> generated_query r <> None ->
            decode_query_toks sample_literal_eval (query_toks r) = Ok t -> t <> [])
    as Hne.
  { intros r t Hin Hgen Hdec.
    apply elem_of_cons in Hin as [->|Hin].
    - vm_compute in Hdec. by injection Hdec as <-.
    - apply elem_of_cons in Hin as [->|Hin].
      + vm_compute in Hdec. by injection Hdec as <-.
      + apply list_elem_of_singleton in Hin as ->. by destruct Hgen. }
  exists ps, ds, es. split; [reflexivity|]. split; [exact Hne|].
  exact (evaluate_sql_exact_sum_le_partial_sum sample_literal_eval data ps ds es Hres Hne).
Defined.

(** On those three rows the exact flags add up to 1 and the partial
    percentages to 150. *)
Example evaluate_sql_sums_scenario :
  match evaluate_sql sample_literal_eval
          [Row (Some "select a"%string) (PyIter [PyStr "SELECT"; PyStr "a"]);
           Row (Some "select b"%string) (PyStr "['SELECT', 'a']");
           Row None (PyIter [])] with
  | Ok (ps, _, es) => py_sum_Z es = 1%Z /\ (py_sum_Q ps == 150)%Q
  | Raise _ => False
  end.
Proof.
  unfold evaluate_sql. cbn -[evaluate_rows]. rewrite evaluate_rows_eq.
  vm_compute. split; reflexivity.
Qed.

(** ** The split by hardness *)

Lemma elem_of_unique {A} `{EqDecision A} (l : list A) x : x ∈ unique l <-> x ∈ l.
Proof.
  induction l as [|y l IH]; simpl; [done|].
  rewrite !elem_of_cons, list_elem_of_filter, IH. split.
  - intros [->|[Hne Hin]]; [by left | by right].
  - intros [->|Hin]; [by left|].
    destruct (decide (x = y)) as [->|Hne]; [by left | by right].
Qed.

Lemma NoDup_unique {A} `{EqDecision A} (l : list A) : NoDup (unique l).
Proof.
  induction l as [|y l IH]; simpl; [constructor|].
  constructor.
  - rewrite list_elem_of_filter. by intros [Hne _].
  - by apply NoDup_filter.
Qed.

Lemma indicator_sum (cs : list hardness) (x : hardness) :
  NoDup cs -> x ∈ cs ->
  sum_list (map (fun c => if decide (x = c) then 1 else 0) cs) = 1.
Proof.
  induction 1 as [|c cs Hnin Hnd IH]; intros Hin; [inversion Hin|].
  simpl. destruct (decide (x = c)) as [->|Hne].
  - assert (sum_list (map (fun c0 => if decide (c = c0) then 1 else 0) cs) = 0) as ->;
      [|done].
    clear -Hnin. induction cs as [|c' cs IH]; simpl; [done|].
    rewrite decide_False by (intros ->; apply Hnin; by left).
    apply IH. intros Hin. apply Hnin. by right.
  - apply elem_of_cons in Hin as [?|Hin]; [done|]. by rewrite IH.
Qed.

Lemma level_sizes_sum (cs : list hardness) (data : list query_row) :
  NoDup cs ->
  Forall (fun r => categorize_query (qr_query r) ∈ cs) data ->
  sum_list (map (fun c =>
                   length (filter (fun r => categorize_query (qr_query r) = c) data))
              cs)
  = length data.
Proof.
  intros Hnd. induction 1 as [|r data Hr _ IH]; simpl.
  - induction cs as [|c cs IHcs]; simpl; [done|].
    apply IHcs. by apply NoDup_cons in Hnd as [_ ?].
  - assert (forall cs',
              sum_list (map (fun c =>
                 length (filter (fun r => categorize_query (qr_query r) = c) (r :: data)))
                 cs')
              = sum_list (map (fun c =>
                   if decide (categorize_query (qr_query r) = c) then 1 else 0) cs')
                + sum_list (map (fun c =>
                   length (filter (fun r => categorize_query (qr_query r) = c) data))
                   cs')) as Hsplit.
    { induction cs' as [|c cs' IHcs]; simpl; [done|].
      rewrite filter_cons.
      destruct (decide (categorize_query (qr_query r) = c)); simpl; lia. }
    rewrite Hsplit, indicator_sum, IH by done. done.
Qed.

(** X19. The split by hardness is a partition of the rows: the levels
    listed are distinct, no subset is empty, every row lies in the subset
    of its own level and every row of a subset has that level, and the
    sizes of the subsets add up to the size of the dataset. *)
Theorem hardness_subsets_partition (data : list query_row) :
  NoDup (map fst (hardness_subsets data)) /\
  Forall (fun '(category, subset) =>
            subset <> [] /\
            Forall (fun r => r ∈ data /\ categorize_query (qr_query r) = category)
              subset)
         (hardness_subsets data) /\
  Forall (fun r => exists subset,
            (categorize_query (qr_query r), subset) ∈ hardness_subsets data /\
            r ∈ subset)
         data /\
  sum_list (map (fun '(_, subset) => length subset) (hardness_subsets data))
  = length data.
Proof.
  unfold hardness_subsets.
  set (levels := map (fun r => categorize_query (qr_query r)) data).
  assert (forall c, c ∈ unique levels <->
                    exists r, r ∈ data /\ categorize_query (qr_query r) = c) as Hlev.
  { intros c. rewrite elem_of_unique. unfold levels. rewrite list_elem_of_fmap.
    split; [intros (r & -> & Hr) | intros (r & Hr & <-)]; eauto. }
  split; [|split; [|split]].
  - rewrite map_map. simpl. rewrite map_id. apply NoDup_unique.
  - apply Forall_forall. intros [c subset] Hin.
    apply list_elem_of_fmap in Hin as (c' & [= -> ->] & Hc).
    apply Hlev in Hc as (r & Hr & Hrc). split.
    + intros Hnil.
      assert (r ∈ filter (fun r => categorize_query (qr_query r) = c') data) as Hr'
        by (apply list_elem_of_filter; done).
      rewrite Hnil in Hr'. inversion Hr'.
    + apply Forall_forall. intros r' Hr'.
      apply list_elem_of_filter in Hr'. tauto.
  - apply Forall_forall. intros r Hr. eexists. split.
    + apply list_elem_of_fmap. exists (categorize_query (qr_query r)).
      split; [reflexivity|]. apply Hlev. eauto.
    + by apply list_elem_of_filter.
  - rewrite map_map. simpl. apply level_sizes_sum; [apply NoDup_unique|].
    apply Forall_forall. intros r Hr. apply Hlev. eauto.
Qed.

(** ** The classifier's keyword counts and the tokenizer *)

Lemma word_only_spec w :
  word_only w = true -> w <> [] /\ forallb Char.is_word w = true.
Proof. destruct w; [done|]. unfold word_only. done. Qed.

Lemma delimited_needs_word_start kw prev s :
  word_only kw = true -> is_word_opt (head s) = false -> delimited kw prev s = false.
Proof.
  intros Hkw Hs. unfold delimited.
  destruct kw as [|c kw]; [done|]. simpl in Hkw. apply andb_prop in Hkw as [Hc _].
  destruct s as [|d s]; simpl; [apply andb_false_r|].
  destruct (Ascii.eqb_spec c d) as [->|]; [|apply andb_false_r].
  simpl in Hs. congruence.
Qed.

Lemma delimited_inside_word kw p c s :
  Char.is_word p = true -> Char.is_word c = true ->
  delimited kw (Some p) (c :: s) = false.
Proof.
  intros Hp Hc. unfold delimited, at_boundary. simpl. by rewrite Hp, Hc.
Qed.

Lemma delimited_whole_word kw prev w s :
  word_only kw = true -> w <> [] -> forallb Char.is_word w = true ->
  is_word_opt prev = false -> is_word_opt (head s) = false ->
  delimited kw prev (w ++ s) = bool_decide (w = kw).
Proof.
  intros Hkw Hne Hall Hprev Hs.
  destruct (word_only_spec _ Hkw) as [Hkne Hkall].
  destruct (decide (w = kw)) as [->|Hneq].
  - rewrite bool_decide_eq_true_2 by done. unfold delimited.
    rewrite strip_prefix_self. unfold at_boundary.
    rewrite Hprev, Hs, (last_char_word prev kw Hkne Hkall).
    destruct kw as [|c kw]; [done|]. simpl in *.
    apply andb_prop in Hkall as [-> _]. done.
  - rewrite bool_decide_eq_false_2 by done.
    destruct (delimited kw prev (w ++ s)) eqn:Hd; [|done].
    destruct (delimited_word_end _ _ _ Hkne Hkall Hd) as (rest & Heq & Hrest).
    destruct Hneq. by apply (word_prefix_unique _ _ _ _ Heq).
Qed.

(** Over a text with raw tokens [raw], the positions where the word
    [kw] stands delimited are as many as the tokens equal to [kw]. *)
Lemma delimited_count_tokens kw s raw :
  word_only kw = true -> Tokens s raw ->
  forall prev,
    is_word_opt prev = false \/ is_word_opt (head s) = false ->
    count_positions (delimited kw) prev s = length (filter (fun t => t = kw) raw).
Proof.
  intros Hkw. destruct (word_only_spec _ Hkw) as [Hkne Hkall].
  induction 1 as [|c s toks Hsp _ IH|c s toks Hw Hsp _ IH|w s toks Hne Hall Hend _ IH];
    intros prev Hctx.
  - simpl. by rewrite delimited_needs_word_start.
  - pose proof (space_not_word c Hsp) as Hw. cbn [count_positions].
    rewrite delimited_needs_word_start by (simpl; done).
    apply IH. left. done.
  - cbn [count_positions].
    rewrite delimited_needs_word_start by (simpl; done).
    rewrite filter_cons, decide_False.
    + apply IH. left. done.
    + intros <-. simpl in Hkall. rewrite Hw in Hkall. done.
  - assert (is_word_opt prev = false) as Hprev.
    { destruct Hctx as [|Hhead]; [done|]. destruct w as [|c w]; [done|].
      simpl in Hhead, Hall. apply andb_prop in Hall as [Hc _]. congruence. }
    rewrite filter_cons.
    assert (count_positions (delimited kw) prev (w ++ s)
            = (if bool_decide (w = kw) then 1 else 0)
              + count_positions (delimited kw) (last_char prev w) s) as ->.
    { rewrite <- (delimited_whole_word kw prev w s) by done.
      destruct w as [|c w]; [done|]. cbn [app count_positions]. f_equal.
      rewrite last_char_cons. apply count_positions_skip.
      intros a1 a2 -> Ha2. destruct a2 as [|d a2]; [done|].
      simpl in Hall. apply andb_prop in Hall as [Hc Hall].
      rewrite forallb_app in Hall. apply andb_prop in Hall as [Ha1 Ha2'].
      simpl in Ha2'. apply andb_prop in Ha2' as [Hd _].
      assert (exists p, last_char (Some c) a1 = Some p /\ Char.is_word p = true)
        as (p & -> & Hp).
      { pose proof (last_char_word (Some c) (c :: a1) ltac:(done)) as Hl.
        rewrite last_char_cons in Hl. simpl in Hl. rewrite Hc, Ha1 in Hl.
        specialize (Hl eq_refl).
        destruct (last_char (Some c) a1) as [p|]; [eauto | done]. }
      simpl. by apply delimited_inside_word. }
    rewrite (IH (last_char prev w)) by (right; done).
    destruct (decide (w = kw)) as [->|Hneq].
    + rewrite bool_decide_eq_true_2 by done. done.
    + rewrite bool_decide_eq_false_2 by done. done.
Qed.

Lemma inner_ok_words ws p w :
  Char.is_word p = true -> forallb Char.is_word w = true -> inner_ok ws p w = true.
Proof.
  revert p. induction w as [|c w IH]; intros p Hp Hall; simpl; [done|].
  simpl in Hall. apply andb_prop in Hall as [Hc Hall].
  rewrite Hp, Hc. simpl. by apply IH.
Qed.

Lemma word_only_keywords_ok kw : word_only kw = true -> keywords_ok [kw] = true.
Proof.
  intros Hkw. destruct (word_only_spec _ Hkw) as [Hkne Hkall].
  unfold keywords_ok. simpl. rewrite andb_true_r.
  destruct kw as [|c kw]; [done|]. simpl in Hkall.
  apply andb_prop in Hkall as [Hc Hkall]. by apply inner_ok_words.
Qed.

Lemma filter_tokens_strings (raw : list (list ascii)) (kw : string) :
  length (filter (fun t => t = list_ascii_of_string kw) raw)
  = length (filter (fun tok => tok = kw) (map string_of_list_ascii raw)).
Proof.
  induction raw as [|t raw IH]; [done|].
  cbn [map]. rewrite !filter_cons.
  destruct (decide (t = list_ascii_of_string kw)) as [->|Hne].
  - rewrite decide_True by apply string_of_list_ascii_of_string. simpl. by rewrite IH.
  - rewrite decide_False; [done|]. intros <-.
    by rewrite list_ascii_of_string_of_list_ascii in Hne.
Qed.

(** X20. For a query of characters with code points 0 to 255 and a
    keyword made of word characters, the classifier's count of the
    keyword in the lower-cased query is the number of tokens of the query
    equal to the keyword: on such text the two components agree on what
    a word is. *)
Theorem keyword_count_is_token_count (kw query : string) :
  word_only (list_ascii_of_string kw) = true ->
  count (keyword_re kw) (lower (list_ascii_of_string query))
  = Z.of_nat (length (filter (fun tok => tok = kw) (tokenize_sql (Some query)))).
Proof.
  intros Hkw. unfold count. f_equal.
  rewrite count_keyword by (by apply word_only_keywords_ok).
  rewrite (delimited_count_tokens _ _ _ Hkw
             (Tokens_lower _ _ (raw_tokens_spec (list_ascii_of_string query)))
             None (or_introl eq_refl)).
  rewrite tokenize_sql_raw. apply filter_tokens_strings.
Qed.

Lemma keyword_count_is_token_count_witness :
  let query := "SELECT a FROM t JOIN u ON x LEFT JOIN v ON joined"%string in
  word_only (list_ascii_of_string "join") = true /\
  count (keyword_re "join") (lower (list_ascii_of_string query))
  = Z.of_nat (length (filter (fun tok => tok = "join"%string)
                        (tokenize_sql (Some query)))).
Proof.
  intros query.
  assert (word_only (list_ascii_of_string "join") = true) as Hkw by reflexivity.
  split; [exact Hkw|]. exact (keyword_count_is_token_count "join" query Hkw).
Defined.
